(** * C++20 coroutine examples: CoTask, Promise, and the std::generator sequence

    A shallow embedding of the three example programs
    - [CoroutinesCommon/coroutines.cpp] (CoTask without move operations),
    - the movable CoTask example (CoTask with move constructor and move
      assignment, otherwise the same promise types and the same examples),
    - the std::generator example ([sequence], [print_range]),
    together with the part of the C++ coroutine run time they rely on
    (suspension at awaiters, [coroutine_handle] operations).

    A coroutine body is a tree of its observable actions; its local variables
    live in the Rocq terms that build the tree.  A coroutine frame is a promise
    plus the point the coroutine is suspended at.  Frames live in a heap that is
    indexed by handles; CoTask wrappers live in a store indexed by the name of
    the C++ variable. *)

From stdpp Require Import gmap strings list fin_maps pretty.
From Stdlib Require Import ZArith Lia Ascii.

Open Scope Z_scope.

(** ** Outcomes of running code *)

(** [Terminated]: the process was ended by [std::terminate] or [std::abort].
    [Undefined]: the C++ program has no defined behaviour there (a dangling or
    null handle dereferenced, an indeterminate value read, a finished coroutine
    resumed), or is ill-formed (a name declared twice, a name used out of its
    scope).  [OutOfFuel]: the loop bound handed to the model was too small. *)
Inductive Result (A : Type) : Type :=
| Ok (a : A)
| Terminated
| Undefined
| OutOfFuel.
Arguments Ok {A} a.
Arguments Terminated {A}.
Arguments Undefined {A}.
Arguments OutOfFuel {A}.

Global Instance Result_ret : MRet Result := λ A a, Ok a.
Global Instance Result_bind : MBind Result := λ A B f m,
  match m with
  | Ok a => f a
  | Terminated => Terminated
  | Undefined => Undefined
  | OutOfFuel => OutOfFuel
  end.

(** The line feed that ['\n'] writes. *)
Definition nl : string := String "010"%char EmptyString.

(** ** Integral types *)

(** An integral type of C++: its signedness and its width in bits.  Values
    are integers; arithmetic wraps into the range of the type. *)
Record IntType : Type := mkIntType {
  is_signed : bool;
  width : positive;
}.

Definition unsigned : IntType := mkIntType false 32.
Definition int : IntType := mkIntType true 32.

Definition int_min (ty : IntType) : Z :=
  if is_signed ty then - 2 ^ (Z.pos (width ty) - 1) else 0.

Definition int_max (ty : IntType) : Z :=
  if is_signed ty then 2 ^ (Z.pos (width ty) - 1) - 1 else 2 ^ Z.pos (width ty) - 1.

Definition wrap (ty : IntType) (z : Z) : Z :=
  if is_signed ty
  then (z + 2 ^ (Z.pos (width ty) - 1)) mod 2 ^ Z.pos (width ty) - 2 ^ (Z.pos (width ty) - 1)
  else z mod 2 ^ Z.pos (width ty).

Definition in_range (ty : IntType) (z : Z) : Prop := int_min ty ≤ z ≤ int_max ty.

(** [x++]: the value of the expression, and the variable afterwards. *)
Definition post_incr (ty : IntType) (x : Z) : Z * Z := (x, wrap ty (x + 1)).

(** [static_cast<int>(x)]. *)
Definition static_cast_int (x : Z) : Z := wrap int x.

(** [void] as a yield or return type: there is no value to pass. *)
Definition void : Type := Empty_set.

(** ** Awaiters of the standard library *)

Inductive awaiter : Type := suspend_always | suspend_never.

Definition await_ready (a : awaiter) : bool :=
  match a with
  | suspend_always => false
  | suspend_never => true
  end.

(** ** Promise types *)

(** Whether a return type of a coroutine is [void]; [void] has no values.  The specialisations of [Promise] for [void] declare
    [return_void], the others [return_value]. *)
Class ReturnType (U : Type) : Type := {
  returns_void : bool;
  void_has_no_value : returns_void = true → U → False;
}.
Arguments returns_void U {_}.
Arguments void_has_no_value U {_} _ _.

Global Instance void_ReturnType : ReturnType void := {|
  returns_void := true;
  void_has_no_value := λ _ (v : void), match v with end;
|}.

Global Instance integral_ReturnType : ReturnType Z := {|
  returns_void := false;
  void_has_no_value := λ (H : false = true) _, Bool.diff_false_true H;
|}.

(** The customization points the compiler calls on a promise object of type
    [P] of a coroutine that yields [T] and returns [U].  [return_void] is
    [None] for a promise type that declares no such member: control flowing
    off the end of a coroutine with such a promise has no defined behaviour. *)
Class PromiseType (P T U : Type) : Type := {
  promise_default : P;
  initial_suspend : P → awaiter;
  final_suspend : P → awaiter;
  unhandled_exception : P → Result P;
  yield_value : T → P → P * awaiter;
  return_value : U → P → P;
  return_void : option (P → P);
}.

(** [Promise<T, U>]: the members [x_] and [y_] are default-initialised, so they
    hold no determinate value until they are assigned. *)
Record Promise (T U : Type) : Type := mkPromise {
  x_ : option T;
  y_ : option U;
}.
Arguments mkPromise {T U} x_ y_.
Arguments x_ {T U} p.
Arguments y_ {T U} p.

Module PromiseBase.
(** Determines whether the routine starts eagerly or lazily. *)
Definition initial_suspend {P : Type} (p : P) : awaiter := suspend_always.
(** Should be suspended at the end. *)
Definition final_suspend {P : Type} (p : P) : awaiter := suspend_always.
(** Deals with exceptions not handled locally inside the coroutine. *)
Definition unhandled_exception {P : Type} (p : P) : Result P := Terminated.
End PromiseBase.

Section PromiseMembers.
Context {T U : Type} `{!ReturnType U}.

Definition Promise_yield_value (x : T) (p : Promise T U) : Promise T U * awaiter :=
  (mkPromise (Some x) (y_ p), suspend_always).

Definition Promise_return_value (y : U) (p : Promise T U) : Promise T U :=
  mkPromise (x_ p) (Some y).

(** [void return_void() {}] of [Promise<void, void>] and [Promise<T, void>].
    The primary template and [Promise<void, U>] declare [return_value] and no
    [return_void]. *)
Definition Promise_return_void (p : Promise T U) : Promise T U := p.

Global Instance Promise_PromiseType : PromiseType (Promise T U) T U := {|
  promise_default := mkPromise None None;
  initial_suspend := PromiseBase.initial_suspend;
  final_suspend := PromiseBase.final_suspend;
  unhandled_exception := PromiseBase.unhandled_exception;
  yield_value := Promise_yield_value;
  return_value := Promise_return_value;
  return_void := if returns_void U then Some Promise_return_void else None;
|}.
End PromiseMembers.

(** ** Coroutine bodies and frames *)

(** What a coroutine body does, in order.  [CoReturnVoid] is [co_return;] as
    well as control flowing off the end of the body; both call [return_void]
    and need a promise that declares it.  [Throw] is an exception leaving the
    body. *)
Inductive Body (T U : Type) : Type :=
| Print (s : string) (k : Body T U)
| CoAwait (a : awaiter) (k : Body T U)
| CoYield (x : T) (k : Body T U)
| CoReturn (y : U)
| CoReturnVoid
| Throw.
Arguments Print {T U} s k.
Arguments CoAwait {T U} a k.
Arguments CoYield {T U} x k.
Arguments CoReturn {T U} y.
Arguments CoReturnVoid {T U}.
Arguments Throw {T U}.

(** Where a suspended coroutine waits, with what is left of its body. *)
Inductive Status (T U : Type) : Type :=
| AtInitialSuspend (body : Body T U)
| AtAwait (k : Body T U)
| AtYield (k : Body T U)
| AtFinalSuspend.
Arguments AtInitialSuspend {T U} body.
Arguments AtAwait {T U} k.
Arguments AtYield {T U} k.
Arguments AtFinalSuspend {T U}.

Record Frame (P T U : Type) : Type := mkFrame {
  promise : P;
  status : Status T U;
}.
Arguments mkFrame {P T U} promise status.
Arguments promise {P T U} f.
Arguments status {P T U} f.

Section Runtime.
Context {P T U : Type} `{!PromiseType P T U}.

(** [coroutine_handle::done]: suspended at the final suspend point. *)
Definition done (f : Frame P T U) : bool :=
  match status f with
  | AtFinalSuspend => true
  | _ => false
  end.

(** [co_await promise.final_suspend()]: when the awaiter is ready the
    coroutine state is destroyed on the spot and no frame remains. *)
Definition reach_final (p : P) : option (Frame P T U) :=
  if await_ready (final_suspend p) then None
  else Some (mkFrame p AtFinalSuspend).

(** Runs the body from [b] to the next suspension, writing to [out]. *)
Fixpoint run (p : P) (b : Body T U) (out : string)
    : Result (option (Frame P T U) * string) :=
  match b with
  | Print s k => run p k (out +:+ s)
  | CoAwait a k =>
      if await_ready a then run p k out
      else Ok (Some (mkFrame p (AtAwait k)), out)
  | CoYield x k =>
      let '(p', a) := yield_value x p in
      if await_ready a then run p' k out
      else Ok (Some (mkFrame p' (AtYield k)), out)
  | CoReturn y => Ok (reach_final (return_value y p), out)
  | CoReturnVoid =>
      match return_void with
      | Some member => Ok (reach_final (member p), out)
      | None => Undefined
      end
  | Throw => p' ← unhandled_exception p; Ok (reach_final p', out)
  end.

(** Calling a coroutine function: the promise is constructed, then
    [co_await promise.initial_suspend()] decides whether the body starts. *)
Definition coroutine_call (body : Body T U) (out : string)
    : Result (option (Frame P T U) * string) :=
  let p := promise_default in
  if await_ready (initial_suspend p) then run p body out
  else Ok (Some (mkFrame p (AtInitialSuspend body)), out).

(** [coroutine_handle::resume] on a live frame. *)
Definition handle_resume (f : Frame P T U) (out : string)
    : Result (option (Frame P T U) * string) :=
  match status f with
  | AtInitialSuspend k | AtAwait k | AtYield k => run (promise f) k out
  | AtFinalSuspend => Undefined
  end.
End Runtime.

(** ** The CoTask wrapper *)

(** A [coroutine_handle] is the address of a frame; [None] is the null handle. *)
Record CoTask : Type := mkCoTask {
  handle_ : option nat;
}.

(** The state of a running example: the live coroutine frames, the live CoTask
    objects under the names of their variables, and what was written to
    [std::cout]. *)
Record World (T U : Type) : Type := mkWorld {
  frames : gmap nat (Frame (Promise T U) T U);
  tasks : gmap string CoTask;
  cout : string;
}.
Arguments mkWorld {T U} frames tasks cout.
Arguments frames {T U} _.
Arguments tasks {T U} _.
Arguments cout {T U} _.

Section CoTaskMembers.
Context {T U : Type} `{!ReturnType U}.
Implicit Types (σ : World T U) (ct : CoTask) (w : string).

(** [Promise::get_return_object]: a CoTask around the handle of the frame. *)
Definition get_return_object (h : nat) : CoTask := mkCoTask (Some h).

(** [coroutine_handle::destroy]. *)
Definition handle_destroy (h : nat) (fs : gmap nat (Frame (Promise T U) T U))
    : Result (gmap nat (Frame (Promise T U) T U)) :=
  match fs !! h with
  | Some _ => Ok (delete h fs)
  | None => Undefined
  end.

(** [if(handle_) handle_.destroy();] of the destructor and of move assignment. *)
Definition destroy_if_set ct (fs : gmap nat (Frame (Promise T U) T U))
    : Result (gmap nat (Frame (Promise T U) T U)) :=
  match handle_ ct with
  | Some h => handle_destroy h fs
  | None => Ok fs
  end.

(** [std::exchange(ct.handle_, nullptr)]: the old handle, and [ct] afterwards. *)
Definition exchange_null ct : option nat * CoTask :=
  (handle_ ct, mkCoTask None).

(** [bool CoTask::resume() const]. *)
Definition CoTask_resume ct σ : Result (bool * World T U) :=
  match handle_ ct with
  | None => Ok (false, σ)
  | Some h =>
      match frames σ !! h with
      | None => Undefined
      | Some f =>
          if done f then Ok (false, σ)
          else
            '(f', out) ← handle_resume f (cout σ);
            match f' with
            | Some f' =>
                Ok (negb (done f'), mkWorld (<[h := f']> (frames σ)) (tasks σ) out)
            | None => Undefined
            end
      end
  end.

(** [handle_.promise()]. *)
Definition handle_promise ct σ : Result (Promise T U) :=
  match handle_ ct with
  | None => Undefined
  | Some h =>
      match frames σ !! h with
      | None => Undefined
      | Some f => Ok (promise f)
      end
  end.

(** Reading a member that was never assigned has no defined result. *)
Definition read_slot {A : Type} (slot : option A) : Result A :=
  match slot with
  | Some v => Ok v
  | None => Undefined
  end.

(** [auto CoTask::get_value() const]. *)
Definition CoTask_get_value ct σ : Result T :=
  p ← handle_promise ct σ; read_slot (x_ p).

(** [auto CoTask::get_result() const]. *)
Definition CoTask_get_result ct σ : Result U :=
  p ← handle_promise ct σ; read_slot (y_ p).

(** The CoTask object that the variable [w] names. *)
Definition task w σ : Result CoTask :=
  match tasks σ !! w with
  | Some ct => Ok ct
  | None => Undefined
  end.

(** [auto w = body();] *)
Definition call w (body : Body T U) σ : Result (World T U) :=
  match tasks σ !! w with
  | Some _ => Undefined
  | None =>
      '(f, out) ← coroutine_call body (cout σ);
      let h := fresh (dom (frames σ)) in
      let fs := match f with
                | Some f => <[h := f]> (frames σ)
                | None => frames σ
                end in
      Ok (mkWorld fs (<[w := get_return_object h]> (tasks σ)) out)
  end.

(** [CoTask dst{std::move(src)};] the move constructor. *)
Definition move_construct (dst src : string) σ : Result (World T U) :=
  match tasks σ !! dst with
  | Some _ => Undefined
  | None =>
      ct ← task src σ;
      let '(h, ct') := exchange_null ct in
      Ok (mkWorld (frames σ) (<[dst := mkCoTask h]> (<[src := ct']> (tasks σ))) (cout σ))
  end.

(** [this = std::move(ct);] the move assignment operator. *)
Definition move_assign (this ct : string) σ : Result (World T U) :=
  t ← task this σ;
  c ← task ct σ;
  if decide (this = ct) then Ok σ
  else
    fs ← destroy_if_set t (frames σ);
    let '(h, c') := exchange_null c in
    Ok (mkWorld fs (<[this := mkCoTask h]> (<[ct := c']> (tasks σ))) (cout σ)).

(** [w] goes out of scope: [~CoTask]. *)
Definition dtor w σ : Result (World T U) :=
  ct ← task w σ;
  fs ← destroy_if_set ct (frames σ);
  Ok (mkWorld fs (delete w (tasks σ)) (cout σ)).

(** [w.resume()], [w.get_value()] and [w.get_result()] on the variable [w]. *)
Definition resume w σ : Result (bool * World T U) :=
  ct ← task w σ; CoTask_resume ct σ.

Definition get_value w σ : Result T :=
  ct ← task w σ; CoTask_get_value ct σ.

Definition get_result w σ : Result U :=
  ct ← task w σ; CoTask_get_result ct σ.

(** [std::cout << s]. *)
Definition write (s : string) σ : World T U :=
  mkWorld (frames σ) (tasks σ) (cout σ +:+ s).

(** [while(w.resume()) { loop_body }] *)
Fixpoint while_resume (fuel : nat) w (loop_body : World T U → Result (World T U)) σ
    : Result (World T U) :=
  match fuel with
  | O => OutOfFuel
  | S fuel' =>
      '(again, σ1) ← resume w σ;
      if (again : bool) then σ2 ← loop_body σ1; while_resume fuel' w loop_body σ2
      else Ok σ1
  end.

(** A world with nothing alive, at the point where [out] has been written. *)
Definition start (out : string) : World T U := mkWorld ∅ ∅ out.
End CoTaskMembers.

(** ** The three coroutine examples *)

(** How [std::cout << v] renders an integer. *)
Definition show (v : Z) : string := pretty v.

Definition co_await_int : Body void void :=
  let x := 0 in
  let '(v, x) := post_incr unsigned x in
  Print (show v) (Print nl (
  CoAwait suspend_always (
  Print (show x) (Print nl (
  CoAwait suspend_always
  CoReturnVoid))))).

Definition co_yield_int : Body Z void :=
  let x := 0 in
  let '(v, x) := post_incr unsigned x in
  CoYield v (
  CoYield x
  CoReturnVoid).

Definition co_return_int : Body Z Z :=
  let x := 0 in
  let '(v, x) := post_incr unsigned x in
  CoYield v (
  CoReturn (static_cast_int x)).

(** The three blocks of [main], each with its own [cpf]. *)
Definition block_co_await_int (fuel : nat) (out : string) : Result string :=
  σ ← call "cpf" co_await_int (start out);
  σ ← while_resume fuel "cpf" Ok σ;
  σ ← dtor "cpf" σ;
  Ok (cout σ).

Definition block_co_yield_int (fuel : nat) (out : string) : Result string :=
  σ ← call "cpf" co_yield_int (start out);
  σ ← while_resume fuel "cpf"
        (λ σ, v ← get_value "cpf" σ; Ok (write nl (write (show v) σ))) σ;
  σ ← dtor "cpf" σ;
  Ok (cout σ).

Definition block_co_return_int (fuel : nat) (out : string) : Result string :=
  σ ← call "cpf" co_return_int (start out);
  σ ← while_resume fuel "cpf"
        (λ σ, v ← get_value "cpf" σ; Ok (write nl (write (show v) σ))) σ;
  r ← get_result "cpf" σ;
  let σ := write nl (write (show r) σ) in
  σ ← dtor "cpf" σ;
  Ok (cout σ).

Module CoroutinesCommon.
(** [main] of coroutines.cpp; the result is what it wrote to [std::cout]. *)
Definition main (fuel : nat) : Result string :=
  out ← block_co_await_int fuel "";
  let out := out +:+ nl in
  out ← block_co_yield_int fuel out;
  let out := out +:+ nl in
  out ← block_co_return_int fuel out;
  Ok out.
End CoroutinesCommon.

Module MovableCoTask.
(** [main] of the example whose CoTask has move operations. *)
Definition main (fuel : nat) : Result string :=
  out ← block_co_await_int fuel "";
  let out := out +:+ nl in
  out ← block_co_yield_int fuel out;
  let out := out +:+ nl in
  out ← block_co_return_int fuel out;
  let out := out +:+ nl in
  Ok out.
End MovableCoTask.

(** ** std::generator and the sequence example *)

(** The promise of [std::generator<T>] keeps the value of the last [co_yield];
    the coroutine is suspended initially, at every [co_yield] and finally.  An
    exception of the body is handed to whoever advances the generator; [main]
    catches nothing, so it ends the process. *)
Record generator_promise (T : Type) : Type := mkGeneratorPromise {
  value_ : option T;
}.
Arguments mkGeneratorPromise {T} value_.
Arguments value_ {T} _.

Global Instance generator_PromiseType {T : Type}
    : PromiseType (generator_promise T) T void := {|
  promise_default := mkGeneratorPromise None;
  initial_suspend := λ _, suspend_always;
  final_suspend := λ _, suspend_always;
  unhandled_exception := λ _, Terminated;
  yield_value := λ x _, (mkGeneratorPromise (Some x), suspend_always);
  return_value := λ _ p, p;
  return_void := Some (λ p, p);
|}.

(** A generator object owns the frame of its coroutine. *)
Definition generator (T : Type) : Type := Frame (generator_promise T) T void.

(** A live frame is needed to go on. *)
Definition alive {A : Type} (r : option A * string) : Result (A * string) :=
  match r with
  | (Some f, out) => Ok (f, out)
  | (None, _) => Undefined
  end.

(** Ranges that a range-based [for] can walk: [range_fold] runs
    [for(auto&& x : R) s = visit x s], where the state carries [std::cout]. *)
Class InputRange (R T : Type) : Type :=
  range_fold : ∀ {A : Type}, nat → R → (T → A * string → A * string) →
               A * string → Result (A * string).

(** [for(; it != end; ++it)] on a generator: [it != end] asks whether the
    coroutine is done, [*it] reads the promise, [++it] resumes. *)
Fixpoint generator_loop {T A : Type} (fuel : nat) (f : generator T)
    (visit : T → A * string → A * string) (s : A * string) : Result (A * string) :=
  match fuel with
  | O => OutOfFuel
  | S fuel' =>
      if done f then Ok s
      else
        x ← read_slot (value_ (promise f));
        let '(a, out) := visit x s in
        '(f', out) ← handle_resume f out ≫= alive;
        generator_loop fuel' f' visit (a, out)
  end.

(** [begin()] resumes the coroutine for the first time. *)
Global Instance generator_range {T : Type} : InputRange (generator T) T :=
  λ A fuel g visit '(a, out),
    '(f, out) ← handle_resume g out ≫= alive;
    generator_loop fuel f visit (a, out).

Global Instance vector_range {T : Type} : InputRange (list T) T :=
  λ A fuel l visit s, Ok (foldl (λ s x, visit x s) s l).

(** [void print_range(auto&& R)]. *)
Definition print_range {R : Type} `{!InputRange R Z} (fuel : nat) (r : R) (out : string)
    : Result string :=
  '(_, out) ← range_fold fuel r (λ x '(u, out), (u, out +:+ show x +:+ nl)) ((), out);
  Ok (out +:+ nl).

(** [R | std::ranges::to<std::vector>()]. *)
Definition to_vector {R T : Type} `{!InputRange R T} (fuel : nat) (r : R) (out : string)
    : Result (list T * string) :=
  range_fold fuel r (λ x '(v, out), (v ++ [x], out)) ([], out).

(** The loop [while(x < n) co_yield x++;] of [sequence], from the state [x]. *)
Fixpoint sequence_loop (ty : IntType) (fuel : nat) (n x : Z) : Result (Body Z void) :=
  match fuel with
  | O => OutOfFuel
  | S fuel' =>
      if x <? n then
        let '(v, x) := post_incr ty x in
        k ← sequence_loop ty fuel' n x;
        Ok (CoYield v k)
      else Ok CoReturnVoid
  end.

(** [std::generator<T> sequence(T n)]: [T x{};] then the loop. *)
Definition sequence (ty : IntType) (fuel : nat) (n : Z) (out : string)
    : Result (generator Z * string) :=
  let x := 0 in
  body ← sequence_loop ty fuel n x;
  coroutine_call body out ≫= alive.

(** [std::ranges::includes(g, l2)] with a generator as the first range: is the
    sorted [l2] a subsequence of the sorted values of the generator? *)
Fixpoint includes_loop (fuel : nat) (f : generator Z) (l2 : list Z) (out : string)
    : Result (bool * string) :=
  match l2 with
  | [] => Ok (true, out)
  | b :: l2' =>
      match fuel with
      | O => OutOfFuel
      | S fuel' =>
          if done f then Ok (false, out)
          else
            a ← read_slot (value_ (promise f));
            if b <? a then Ok (false, out)
            else
              '(f', out) ← handle_resume f out ≫= alive;
              includes_loop fuel' f' (if a <? b then l2 else l2') out
      end
  end.

Definition includes (fuel : nat) (g : generator Z) (l2 : list Z) (out : string)
    : Result (bool * string) :=
  '(f, out) ← handle_resume g out ≫= alive;
  includes_loop fuel f l2 out.

(** [assert(c)]. *)
Definition assert (c : bool) : Result () := if c then Ok () else Terminated.

Module GeneratorExample.
(** [main] of the generator example; the result is what it wrote. *)
Definition main (fuel : nat) : Result string :=
  '(g, out) ← sequence int fuel 10 "";
  out ← print_range fuel g out;
  '(g, out) ← sequence int fuel 10 out;
  '(x, out) ← to_vector fuel g out;
  out ← print_range fuel x out;
  '(g, out) ← sequence int fuel 10 out;
  '(c, out) ← includes fuel g [1; 3; 5] out;
  _ ← assert c;
  Ok out.
End GeneratorExample.


(** ** What a program can do with CoTask objects *)

(** The statements of a program that uses CoTask.  There is no copy: the copy
    constructor and the copy assignment operator are deleted.  The two move
    operations exist in the movable CoTask only; coroutines.cpp declares none. *)
Inductive Op (T U : Type) : Type :=
| OpCall (w : string) (body : Body T U)
| OpMoveCtor (dst src : string)
| OpMoveAssign (this ct : string)
| OpDtor (w : string)
| OpResume (w : string)
| OpGetValue (w : string)
| OpGetResult (w : string).
Arguments OpCall {T U} w body.
Arguments OpMoveCtor {T U} dst src.
Arguments OpMoveAssign {T U} this ct.
Arguments OpDtor {T U} w.
Arguments OpResume {T U} w.
Arguments OpGetValue {T U} w.
Arguments OpGetResult {T U} w.

Section Programs.
Context {T U : Type} `{!ReturnType U}.
Implicit Types (σ : World T U) (op : Op T U).

Definition exec op σ : Result (World T U) :=
  match op with
  | OpCall w body => call w body σ
  | OpMoveCtor dst src => move_construct dst src σ
  | OpMoveAssign this ct => move_assign this ct σ
  | OpDtor w => dtor w σ
  | OpResume w => '(_, σ') ← resume w σ; Ok σ'
  | OpGetValue w => _ ← get_value w σ; Ok σ
  | OpGetResult w => _ ← get_result w σ; Ok σ
  end.

Fixpoint exec_all (ops : list (Op T U)) σ : Result (World T U) :=
  match ops with
  | [] => Ok σ
  | op :: ops' => σ' ← exec op σ; exec_all ops' σ'
  end.

(** The operations that coroutines.cpp can express. *)
Definition is_move op : bool :=
  match op with
  | OpMoveCtor _ _ | OpMoveAssign _ _ => true
  | _ => false
  end.

(** [w] holds the handle [h]. *)
Definition owns σ (w : string) (h : nat) : Prop :=
  tasks σ !! w = Some (mkCoTask (Some h)).

(** The frame behind [h] is alive before the step and gone after it. *)
Definition destroyed (h : nat) σ σ' : Prop :=
  is_Some (frames σ !! h) ∧ frames σ' !! h = None.

(** Ownership discipline: a handle has one owner, an owned handle is alive,
    a live frame is owned. *)
Record wf σ : Prop := mkWf {
  wf_unique : ∀ w1 w2 h, owns σ w1 h → owns σ w2 h → w1 = w2;
  wf_alive : ∀ w h, owns σ w h → is_Some (frames σ !! h);
  wf_owned : ∀ h, is_Some (frames σ !! h) → ∃ w, owns σ w h;
}.

(** What is left of the body of a suspended coroutine. *)
Definition continuation (f : Frame (Promise T U) T U) : option (Body T U) :=
  match status f with
  | AtInitialSuspend k | AtAwait k | AtYield k => Some k
  | AtFinalSuspend => None
  end.

(** Does the stretch of [k] up to its next suspension end in an exception? *)
Fixpoint throws_next (k : Body T U) : bool :=
  match k with
  | Print _ k' => throws_next k'
  | CoAwait a k' => if await_ready a then throws_next k' else false
  | Throw => true
  | _ => false
  end.

(** Does the body, run to its end, leave by an exception? *)
Fixpoint ends_in_throw (k : Body T U) : bool :=
  match k with
  | Print _ k' | CoAwait _ k' | CoYield _ k' => ends_in_throw k'
  | Throw => true
  | _ => false
  end.

(** Does the stretch of [k] up to its next suspension flow off the end of the
    body although the promise declares no [return_void]? *)
Fixpoint runs_off_next (k : Body T U) : bool :=
  match k with
  | Print _ k' => runs_off_next k'
  | CoAwait a k' => if await_ready a then runs_off_next k' else false
  | CoReturnVoid => negb (returns_void U)
  | _ => false
  end.

(** Does the body, run to its end, do so? *)
Fixpoint runs_off_end (k : Body T U) : bool :=
  match k with
  | Print _ k' | CoAwait _ k' | CoYield _ k' => runs_off_end k'
  | CoReturnVoid => negb (returns_void U)
  | _ => false
  end.

Fixpoint body_size (k : Body T U) : nat :=
  match k with
  | Print _ k' | CoAwait _ k' | CoYield _ k' => S (body_size k')
  | _ => 1%nat
  end.
(** [op] moves out of the wrapper [w], by construction or by assignment. *)
Definition moved_from op (w : string) : Prop :=
  ∃ dst, dst ≠ w ∧ (op = OpMoveCtor dst w ∨ op = OpMoveAssign dst w).

(** [op] assigns another wrapper over [w]. *)
Definition assigned_over op (w : string) : Prop :=
  ∃ src, src ≠ w ∧ op = OpMoveAssign w src.

(** The reading of "destroyed when the wrapper is destroyed or moved-from":
    a step destroys the frame that [w] owns exactly when it destroys [w] or
    moves out of [w]. *)
Definition destroyed_on_move_from : Prop :=
  ∀ op σ σ' (w : string) (h : nat),
    wf σ → owns σ w h → exec op σ = Ok σ' →
    (destroyed h σ σ' ↔ op = OpDtor w ∨ moved_from op w).

(** The call on the promise that the stretch of [k] up to its next
    suspension makes, if it makes one. *)
Inductive PromiseCall : Type :=
| CallYieldValue (x : T)
| CallReturnValue (y : U)
| CallReturnVoid
| NoCall.

Fixpoint next_call (k : Body T U) : PromiseCall :=
  match k with
  | Print _ k' => next_call k'
  | CoAwait a k' => if await_ready a then next_call k' else NoCall
  | CoYield x _ => CallYieldValue x
  | CoReturn y => CallReturnValue y
  | CoReturnVoid => CallReturnVoid
  | Throw => NoCall
  end.

Definition apply_call (c : PromiseCall) (p : Promise T U) : Promise T U :=
  match c with
  | CallYieldValue x => (yield_value x p).1
  | CallReturnValue y => return_value y p
  | CallReturnVoid => Promise_return_void p
  | NoCall => p
  end.




End Programs.

(** [std::cout << v << '\n']. *)
Definition line (v : Z) : string := show v +:+ nl.

(** The lines that printing the values of [l] one by one gives. *)
Definition lines (l : list Z) : string := foldr (λ v s, line v +:+ s) "" l.

(** The body that yields the values of [l] in order and then ends. *)
Definition yield_all {T : Type} (l : list T) : Body T void := foldr CoYield CoReturnVoid l.

(** ** Small programs to try the statements on *)

(** The world after [auto a = co_yield_int();]. *)
Definition one_task : World Z void :=
  mkWorld {[0%nat := mkFrame (mkPromise None None) (AtInitialSuspend co_yield_int)]}
          {["a" := mkCoTask (Some 0%nat)]} "".

(** The world after [auto a = co_yield_int(); CoTask b{std::move(a)};]. *)
Definition moved_task : World Z void :=
  mkWorld {[0%nat := mkFrame (mkPromise None None) (AtInitialSuspend co_yield_int)]}
          (<["b" := mkCoTask (Some 0%nat)]> {["a" := mkCoTask None]}) "".

(** The frame of [co_return_int] after its first resumption, and a world that
    holds it. *)
Definition yielded_frame : Frame (Promise Z Z) Z Z :=
  mkFrame (mkPromise (Some 0) None) (AtYield (CoReturn 1)).

Definition yielded_task : World Z Z :=
  mkWorld {[0%nat := yielded_frame]} {["cpf" := mkCoTask (Some 0%nat)]} "".

(** A coroutine that yields once and then lets an exception escape. *)
Definition throwing_body : Body Z void := CoYield 7 Throw.

Definition throwing_task : World Z void :=
  mkWorld {[0%nat := mkFrame (mkPromise (Some 7) None) (AtYield Throw)]}
          {["cpf" := mkCoTask (Some 0%nat)]} "".

(** The world of [yielded_task] after the resumption that finishes the
    coroutine. *)
Definition finished_task : World Z Z :=
  mkWorld {[0%nat := mkFrame (mkPromise (Some 0) (Some 1)) AtFinalSuspend]}
          {["cpf" := mkCoTask (Some 0%nat)]} "".

(** ** Notions for the statements about whole runs *)

(** What a body writes when it is run to its end. *)
Fixpoint prints {T U : Type} (k : Body T U) : string :=
  match k with
  | Print s k' => s +:+ prints k'
  | CoAwait _ k' | CoYield _ k' => prints k'
  | CoReturn _ | CoReturnVoid | Throw => ""
  end.

(** The body that yields the values of [l] in order and then goes on as
    [fin]. *)
Definition yields_then {T U : Type} (l : list T) (fin : Body T U) : Body T U :=
  foldr CoYield fin l.

(** The value that [x_] holds after the yields of [l], when it held [x]. *)
Definition last_yield {T : Type} (x : option T) (l : list T) : option T :=
  foldl (λ _ v, Some v) x l.

(** The body [std::cout << w.get_value() << '\n';] of the loops in [main]. *)
Definition print_value {T U : Type} (show_value : T → string) (w : string)
    (σ : World T U) : Result (World T U) :=
  v ← get_value w σ; Ok (write nl (write (show_value v) σ)).

(** The names that a statement uses are in scope, and the name that it
    declares is new. *)
Definition well_scoped {T U : Type} (op : Op T U) (σ : World T U) : Prop :=
  match op with
  | OpCall w _ => tasks σ !! w = None
  | OpMoveCtor dst src => tasks σ !! dst = None ∧ is_Some (tasks σ !! src)
  | OpMoveAssign this ct => is_Some (tasks σ !! this) ∧ is_Some (tasks σ !! ct)
  | OpDtor w | OpResume w | OpGetValue w | OpGetResult w => is_Some (tasks σ !! w)
  end.

(** The statements that read a slot of the promise. *)
Definition is_read {T U : Type} (op : Op T U) : bool :=
  match op with
  | OpGetValue _ | OpGetResult _ => true
  | _ => false
  end.

(** The integral types of eight bits are [char], [signed char] and
    [unsigned char]: [std::cout << x] writes such an [x] as one character.
    The wider integral types are written as a number, which is what [show]
    gives. *)
Definition is_character_type (ty : IntType) : bool := Pos.eqb (width ty) 8.

(** [std::ranges::includes] on two vectors: the loop of [includes_loop] with
    the first range already in hand. *)
Fixpoint includes_list (l1 l2 : list Z) : bool :=
  match l2 with
  | [] => true
  | b :: l2' =>
      match l1 with
      | [] => false
      | a :: l1' =>
          if b <? a then false
          else includes_list l1' (if a <? b then l2 else l2')
      end
  end.

(** Strictly increasing. *)
Fixpoint increasing (l : list Z) : Prop :=
  match l with
  | [] => True
  | a :: l' => match l' with [] => True | b :: _ => a < b end ∧ increasing l'
  end.

(** * Properties *)

Section ResultFacts.
Context {A B : Type}.

Lemma bind_Ok_inv (m : Result A) (f : A → Result B) (b : B) :
  m ≫= f = Ok b → ∃ a, m = Ok a ∧ f a = Ok b.
Proof. destruct m; simpl; intros E; try discriminate. eauto. Qed.
End ResultFacts.

Ltac inv_bind H :=
  let a := fresh "a" in
  let E := fresh "E" in
  apply bind_Ok_inv in H; destruct H as (a & E & H).

Section RunFacts.
Context {T U : Type} `{!ReturnType U}.
Implicit Types (p : Promise T U) (k : Body T U) (f : Frame (Promise T U) T U).

(** A stretch that neither throws nor runs off the end without [return_void]
    ends in a live, suspended frame. *)
Lemma run_suspends p k out :
  throws_next k = false → runs_off_next k = false →
  ∃ f out', run p k out = Ok (Some f, out').
Proof.
  revert p out. induction k as [s k IH|a k IH|x k IH|y| |]; intros p out Hk Hr;
    simpl in *.
  - by apply IH.
  - destruct a; simpl in *; [eauto|by apply IH].
  - eauto.
  - eauto.
  - destruct (returns_void U); [eauto|discriminate].
  - discriminate.
Qed.

Lemma run_runs_off p k out : runs_off_next k = true → run p k out = Undefined.
Proof.
  revert p out. induction k as [s k IH|a k IH|x k IH|y| |]; intros p out Hr; simpl in *;
    try discriminate.
  - by apply IH.
  - destruct a; simpl in *; [discriminate|by apply IH].
  - by destruct (returns_void U).
Qed.

Lemma run_throws p k out : throws_next k = true → run p k out = Terminated.
Proof.
  revert p out. induction k as [s k IH|a k IH|x k IH|y| |]; intros p out Hk; simpl in *;
    try discriminate.
  - apply IH, Hk.
  - destruct a; simpl in *; [discriminate|apply IH, Hk].
  - reflexivity.
Qed.

Lemma coroutine_call_suspended (body : Body T U) out :
  coroutine_call body out
  = Ok (Some (mkFrame (mkPromise None None) (AtInitialSuspend body)), out).
Proof. reflexivity. Qed.
End RunFacts.

(** ** How each statement changes the world *)

Section Steps.
Context {T U : Type} `{!ReturnType U}.
Implicit Types (σ : World T U) (ct : CoTask) (w : string) (h : nat).

Lemma task_Ok w σ ct : task w σ = Ok ct ↔ tasks σ !! w = Some ct.
Proof. unfold task. destruct (tasks σ !! w); split; congruence. Qed.

Lemma call_Ok w (body : Body T U) σ σ' :
  call w body σ = Ok σ' →
  tasks σ !! w = None ∧
  σ' = mkWorld
         (<[fresh (dom (frames σ)) := mkFrame (mkPromise None None) (AtInitialSuspend body)]>
            (frames σ))
         (<[w := mkCoTask (Some (fresh (dom (frames σ))))]> (tasks σ))
         (cout σ).
Proof.
  unfold call. destruct (tasks σ !! w); [discriminate|].
  rewrite coroutine_call_suspended. simpl. intros [= <-]. done.
Qed.

Lemma move_construct_Ok (dst src : string) σ σ' :
  move_construct dst src σ = Ok σ' →
  tasks σ !! dst = None ∧
  ∃ ct, tasks σ !! src = Some ct ∧
    σ' = mkWorld (frames σ)
           (<[dst := mkCoTask (handle_ ct)]> (<[src := mkCoTask None]> (tasks σ)))
           (cout σ).
Proof.
  unfold move_construct. destruct (tasks σ !! dst); [discriminate|].
  intros H. inv_bind H. apply task_Ok in E. simpl in H. injection H as <-. eauto.
Qed.

Lemma destroy_if_set_Ok ct (fs fs' : gmap nat (Frame (Promise T U) T U)) :
  destroy_if_set ct fs = Ok fs' →
  (handle_ ct = None ∧ fs' = fs) ∨
  (∃ h, handle_ ct = Some h ∧ is_Some (fs !! h) ∧ fs' = delete h fs).
Proof.
  unfold destroy_if_set, handle_destroy. destruct (handle_ ct) as [h|].
  - destruct (fs !! h) eqn:E; [|discriminate]. intros [= <-]. right. eauto.
  - intros [= <-]. by left.
Qed.

Lemma move_assign_Ok (this ct : string) σ σ' :
  move_assign this ct σ = Ok σ' →
  ∃ t c, tasks σ !! this = Some t ∧ tasks σ !! ct = Some c ∧
    ((this = ct ∧ σ' = σ) ∨
     (this ≠ ct ∧ ∃ fs, destroy_if_set t (frames σ) = Ok fs ∧
        σ' = mkWorld fs
               (<[this := mkCoTask (handle_ c)]> (<[ct := mkCoTask None]> (tasks σ)))
               (cout σ))).
Proof.
  unfold move_assign. intros H. inv_bind H. apply task_Ok in E.
  inv_bind H. apply task_Ok in E0. exists a, a0. split; [done|]. split; [done|].
  destruct (decide (this = ct)) as [->|Hne].
  - injection H as <-. by left.
  - inv_bind H. simpl in H. injection H as <-. right. eauto.
Qed.

Lemma dtor_Ok w σ σ' :
  dtor w σ = Ok σ' →
  ∃ ct fs, tasks σ !! w = Some ct ∧ destroy_if_set ct (frames σ) = Ok fs ∧
    σ' = mkWorld fs (delete w (tasks σ)) (cout σ).
Proof.
  unfold dtor. intros H. inv_bind H. apply task_Ok in E. inv_bind H.
  injection H as <-. eauto.
Qed.

Lemma CoTask_resume_Ok ct σ (again : bool) σ' :
  CoTask_resume ct σ = Ok (again, σ') →
  (again = false ∧ σ' = σ ∧
     (handle_ ct = None ∨
      ∃ h f, handle_ ct = Some h ∧ frames σ !! h = Some f ∧ done f = true)) ∨
  (∃ h f f' out, handle_ ct = Some h ∧ frames σ !! h = Some f ∧ done f = false ∧
      handle_resume f (cout σ) = Ok (Some f', out) ∧
      again = negb (done f') ∧
      σ' = mkWorld (<[h := f']> (frames σ)) (tasks σ) out).
Proof.
  unfold CoTask_resume. destruct (handle_ ct) as [h|] eqn:Hh.
  - destruct (frames σ !! h) as [f|] eqn:Hf; [|discriminate].
    destruct (done f) eqn:Hd.
    + intros [= <- <-]. left. naive_solver.
    + intros H. inv_bind H. destruct a as [[f'|] out]; [|discriminate].
      injection H as <- <-. right. naive_solver.
  - intros [= <- <-]. left. naive_solver.
Qed.

Lemma resume_Ok w σ (again : bool) σ' :
  resume w σ = Ok (again, σ') →
  ∃ ct, tasks σ !! w = Some ct ∧ CoTask_resume ct σ = Ok (again, σ').
Proof. unfold resume. intros H. inv_bind H. apply task_Ok in E. eauto. Qed.
End Steps.

(** ** The ownership discipline is kept *)

Section Ownership.
Context {T U : Type} `{!ReturnType U}.
Implicit Types (σ : World T U) (ct : CoTask) (w : string) (h : nat) (op : Op T U).

Lemma fresh_handle_dead σ : frames σ !! fresh (dom (frames σ)) = None.
Proof. apply not_elem_of_dom, is_fresh. Qed.

Lemma wf_start out : wf (start out : World T U).
Proof.
  split; unfold owns; simpl.
  - intros w1 w2 h H. by rewrite lookup_empty in H.
  - intros w h H. by rewrite lookup_empty in H.
  - intros h [f H]. by rewrite lookup_empty in H.
Qed.

Lemma call_wf w (body : Body T U) σ σ' : wf σ → call w body σ = Ok σ' → wf σ'.
Proof.
  intros [Hu Ha Ho] H. apply call_Ok in H as [Hw ->].
  pose proof (fresh_handle_dead σ) as Hf.
  set (h0 := fresh (dom (frames σ))) in *.
  split; unfold owns in *; simpl.
  - intros w1 w2 h H1 H2.
    apply lookup_insert_Some in H1 as [[<- E1]|[Hn1 H1]];
      apply lookup_insert_Some in H2 as [[<- E2]|[Hn2 H2]]; simplify_eq; try done.
    + apply Ha in H2 as [? ?]. congruence.
    + apply Ha in H1 as [? ?]. congruence.
    + eauto.
  - intros w1 h H1.
    apply lookup_insert_Some in H1 as [[<- [= <-]]|[Hn1 H1]].
    + rewrite lookup_insert_eq. eauto.
    + destruct (Ha _ _ H1) as [f Hf']. rewrite lookup_insert_ne; [eauto|congruence].
  - intros h [f Hh]. apply lookup_insert_Some in Hh as [[<- _]|[Hn Hh]].
    + exists w. by rewrite lookup_insert_eq.
    + destruct (Ho h) as [w1 H1]; [eauto|]. exists w1.
      rewrite lookup_insert_ne; [done|congruence].
Qed.

(** Moving a handle from [src] to [dst] in the store of wrappers. *)
Lemma transfer_owns (ts : gmap string CoTask) (dst src : string) c w h :
  dst ≠ src → ts !! src = Some c →
  <[dst := mkCoTask (handle_ c)]> (<[src := mkCoTask None]> ts) !! w = Some (mkCoTask (Some h)) ↔
  (w = dst ∧ handle_ c = Some h) ∨ (w ≠ dst ∧ w ≠ src ∧ ts !! w = Some (mkCoTask (Some h))).
Proof.
  intros Hne Hs. rewrite lookup_insert_Some, lookup_insert_Some. split.
  - intros [[<- [= E]]|[Hn [[<- [=]]|[Hn' H]]]]; [by left|]. right. done.
  - intros [[-> E]|(Hn & Hn' & H)]; [left|right]; [by rewrite E|]. split; [done|]. right. done.
Qed.

Lemma move_construct_wf (dst src : string) σ σ' :
  wf σ → move_construct dst src σ = Ok σ' → wf σ'.
Proof.
  intros [Hu Ha Ho] H. apply move_construct_Ok in H as (Hd & c & Hs & ->).
  assert (dst ≠ src) as Hne by congruence.
  split; unfold owns in *; simpl.
  - intros w1 w2 h H1 H2.
    apply (transfer_owns _ _ _ _ _ _ Hne Hs) in H1, H2.
    destruct c as [hc]; simpl in *.
    destruct H1 as [[-> ->]|(Hd1 & Hs1 & H1)], H2 as [[-> E2]|(Hd2 & Hs2 & H2)];
      try done.
    + exfalso. apply Hs2. eapply Hu; eauto.
    + exfalso. apply Hs1. subst hc. eapply Hu; eauto.
    + eauto.
  - intros w h H1. apply (transfer_owns _ _ _ _ _ _ Hne Hs) in H1.
    destruct c as [hc]; simpl in *. destruct H1 as [[-> ->]|(? & ? & H1)]; eauto.
  - intros h Hh. destruct (Ho h Hh) as [w Hw].
    destruct (decide (w = src)) as [->|Hn].
    + exists dst. apply (transfer_owns _ _ _ _ _ _ Hne Hs). left. split; [done|].
      rewrite Hs in Hw. by injection Hw as ->.
    + exists w. apply (transfer_owns _ _ _ _ _ _ Hne Hs). right. split; [congruence|done].
Qed.
Lemma move_assign_wf (this ct : string) σ σ' :
  wf σ → move_assign this ct σ = Ok σ' → wf σ'.
Proof.
  intros Hwf H. apply move_assign_Ok in H as (t & c & Ht & Hc & [[-> ->]|(Hne & fs & Hfs & ->)]);
    [done|].
  destruct Hwf as [Hu Ha Ho].
  assert (∀ h, is_Some (fs !! h) ↔ is_Some (frames σ !! h) ∧ handle_ t ≠ Some h) as Hfs'.
  { intros h. apply destroy_if_set_Ok in Hfs as [[Hn ->]|(h' & Hh' & _ & ->)].
    - rewrite Hn. split; [by intros ?|by intros [? _]].
    - rewrite Hh', <-!elem_of_dom, dom_delete_L, elem_of_difference, elem_of_singleton.
      split; (intros [? Hn]; split; [done|]); congruence. }
  split; unfold owns in *; simpl.
  - intros w1 w2 h H1 H2.
    apply (transfer_owns _ _ _ _ _ _ Hne Hc) in H1, H2.
    destruct c as [hc]; simpl in *.
    destruct H1 as [[-> ->]|(Hd1 & Hs1 & H1)], H2 as [[-> E2]|(Hd2 & Hs2 & H2)];
      try done.
    + exfalso. apply Hs2. eapply Hu; eauto.
    + exfalso. apply Hs1. subst hc. eapply Hu; eauto.
    + eauto.
  - intros w h H1. apply (transfer_owns _ _ _ _ _ _ Hne Hc) in H1.
    destruct c as [hc], t as [ht]; simpl in *. apply Hfs'.
    destruct H1 as [[-> ->]|(Hd1 & Hs1 & H1)].
    + split; [eauto|]. intros ->. apply Hne. eapply Hu; eauto.
    + split; [eauto|]. intros ->. apply Hd1. eapply Hu; eauto.
  - intros h Hh. apply Hfs' in Hh as [Hh Hth]. destruct (Ho h Hh) as [w Hw].
    destruct (decide (w = ct)) as [->|Hn].
    + exists this. apply (transfer_owns _ _ _ _ _ _ Hne Hc). left. split; [done|].
      rewrite Hc in Hw. by injection Hw as ->.
    + exists w. apply (transfer_owns _ _ _ _ _ _ Hne Hc). right.
      split; [|done]. intros ->. rewrite Ht in Hw. injection Hw as ->. by apply Hth.
Qed.

Lemma dtor_wf w σ σ' : wf σ → dtor w σ = Ok σ' → wf σ'.
Proof.
  intros [Hu Ha Ho] H. apply dtor_Ok in H as (ct & fs & Hw & Hfs & ->).
  assert (∀ h, is_Some (fs !! h) ↔ is_Some (frames σ !! h) ∧ handle_ ct ≠ Some h) as Hfs'.
  { intros h. apply destroy_if_set_Ok in Hfs as [[Hn ->]|(h' & Hh' & _ & ->)].
    - rewrite Hn. split; [by intros ?|by intros [? _]].
    - rewrite Hh', <-!elem_of_dom, dom_delete_L, elem_of_difference, elem_of_singleton.
      split; (intros [? Hn]; split; [done|]); congruence. }
  split; unfold owns in *; simpl.
  - intros w1 w2 h H1 H2.
    apply lookup_delete_Some in H1 as [_ H1], H2 as [_ H2]. eauto.
  - intros w1 h H1. apply lookup_delete_Some in H1 as [Hn H1]. apply Hfs'.
    split; [eauto|]. intros E. apply Hn. destruct ct as [hc]; simpl in *; subst hc.
    eapply Hu; eauto.
  - intros h Hh. apply Hfs' in Hh as [Hh Hth]. destruct (Ho h Hh) as [w1 Hw1].
    exists w1. apply lookup_delete_Some. split; [|done].
    intros <-. rewrite Hw in Hw1. injection Hw1 as ->. by apply Hth.
Qed.

Lemma CoTask_resume_wf ct σ (again : bool) σ' :
  wf σ → CoTask_resume ct σ = Ok (again, σ') → wf σ'.
Proof.
  intros Hwf H.
  apply CoTask_resume_Ok in H
    as [(_ & -> & _)|(h & f & f' & out & Hh & Hf & Hd & Hr & _ & ->)]; [done|].
  destruct Hwf as [Hu Ha Ho].
  assert (∀ h', is_Some (<[h := f']> (frames σ) !! h') ↔ is_Some (frames σ !! h')) as Hfs'.
  { intros h'. rewrite lookup_insert_is_Some. split.
    - intros [<-|[_ H]]; eauto.
    - intros H. destruct (decide (h = h')); [by left|by right]. }
  split; unfold owns in *; simpl.
  - done.
  - intros w h' H. apply Hfs'. eauto.
  - intros h' H. apply Hfs' in H. eauto.
Qed.

Lemma exec_wf op σ σ' : wf σ → exec op σ = Ok σ' → wf σ'.
Proof.
  intros Hwf. destruct op; simpl.
  - by apply call_wf.
  - by apply move_construct_wf.
  - by apply move_assign_wf.
  - by apply dtor_wf.
  - intros H. inv_bind H. destruct a as [again σ1]. injection H as <-.
    apply resume_Ok in E as (ct & _ & E). by eapply CoTask_resume_wf.
  - intros H. inv_bind H. by injection H as <-.
  - intros H. inv_bind H. by injection H as <-.
Qed.

Lemma exec_all_wf (ops : list (Op T U)) σ σ' :
  wf σ → exec_all ops σ = Ok σ' → wf σ'.
Proof.
  revert σ. induction ops as [|op ops IH]; intros σ Hwf; simpl.
  - by intros [= <-].
  - intros H. inv_bind H. eapply IH; [|done]. by eapply exec_wf.
Qed.
End Ownership.

(** ** Ownership of the handle *)

Section HandleOwnership.
Context {T U : Type} `{!ReturnType U}.
Implicit Types (σ : World T U) (ct : CoTask) (w : string) (h : nat) (op : Op T U).

Lemma destroy_if_set_lookup ct (fs fs' : gmap nat (Frame (Promise T U) T U)) h :
  destroy_if_set ct fs = Ok fs' →
  fs' !! h = if decide (handle_ ct = Some h) then None else fs !! h.
Proof.
  intros H. apply destroy_if_set_Ok in H as [[Hn ->]|(h' & Hh' & _ & ->)].
  - rewrite Hn. by case_decide.
  - rewrite Hh'. case_decide as E.
    + injection E as ->. apply lookup_delete_eq.
    + apply lookup_delete_ne. congruence.
Qed.

(** C3 (ownership invariant): in every state that a program reaches from the
    empty world by calls of coroutines, moves, destructions, resumptions and
    reads, a handle is held by at most one live CoTask; a CoTask that was
    moved from, by the move constructor or by move assignment to another
    object, holds the null handle afterwards.  Copies do not exist. *)
Theorem single_owner (ops : list (Op T U)) (out : string) σ :
  exec_all ops (start out) = Ok σ →
  (∀ w1 w2 h, owns σ w1 h → owns σ w2 h → w1 = w2) ∧
  (∀ dst src σ', exec (OpMoveCtor dst src) σ = Ok σ' →
     tasks σ' !! src = Some (mkCoTask None)) ∧
  (∀ (this ct : string) σ', this ≠ ct → exec (OpMoveAssign this ct) σ = Ok σ' →
     tasks σ' !! ct = Some (mkCoTask None)).
Proof.
  intros Hreach. split; [|split].
  - apply (wf_unique σ). eapply exec_all_wf; [apply wf_start|exact Hreach].
  - intros dst src σ' H. simpl in H.
    apply move_construct_Ok in H as (Hd & c & Hs & ->). simpl.
    rewrite lookup_insert_ne by congruence. apply lookup_insert_eq.
  - intros this ct σ' Hne H. simpl in H.
    apply move_assign_Ok in H as (t & c & Ht & Hc & [[? _]|(_ & fs & _ & ->)]); [done|].
    simpl. rewrite lookup_insert_ne by done. apply lookup_insert_eq.
Qed.

Lemma destroyed_by_step op σ σ' w h :
  wf σ → owns σ w h → exec op σ = Ok σ' →
  (destroyed h σ σ' ↔ op = OpDtor w ∨ assigned_over op w).
Proof.
  intros Hwf Hw Hex. pose proof (wf_alive σ Hwf w h Hw) as Halive.
  pose proof (wf_unique σ Hwf) as Hu. unfold owns in *.
  unfold destroyed, assigned_over. split.
  - intros [_ Hgone]. destruct op as [w0 b|dst src|this c0|w0|w0|w0|w0]; simpl in Hex.
    + apply call_Ok in Hex as [_ ->]. simpl in Hgone.
      apply lookup_insert_None in Hgone as [Hgone _].
      rewrite Hgone in Halive. by destruct Halive.
    + apply move_construct_Ok in Hex as (_ & c & _ & ->). simpl in Hgone.
      rewrite Hgone in Halive. by destruct Halive.
    + apply move_assign_Ok in Hex as (t & c & Ht & Hc & [[-> ->]|(Hne & fs & Hfs & ->)]).
      { rewrite Hgone in Halive. by destruct Halive. }
      simpl in Hgone. rewrite (destroy_if_set_lookup _ _ _ h Hfs) in Hgone.
      case_decide as E; [|rewrite Hgone in Halive; by destruct Halive].
      destruct t as [ht]; simpl in E; subst ht.
      assert (this = w) as -> by (eapply Hu; eauto). right. eauto.
    + apply dtor_Ok in Hex as (c & fs & Hc & Hfs & ->).
      simpl in Hgone. rewrite (destroy_if_set_lookup _ _ _ h Hfs) in Hgone.
      case_decide as E; [|rewrite Hgone in Halive; by destruct Halive].
      destruct c as [hc]; simpl in E; subst hc.
      assert (w0 = w) as -> by (eapply Hu; eauto). by left.
    + inv_bind Hex. destruct a as [again σ1]. injection Hex as ->.
      apply resume_Ok in E as (c & _ & E).
      apply CoTask_resume_Ok in E
        as [(_ & -> & _)|(h1 & f & f' & o & _ & Hf & _ & _ & _ & ->)].
      { rewrite Hgone in Halive. by destruct Halive. }
      simpl in Hgone. apply lookup_insert_None in Hgone as [Hgone _].
      rewrite Hgone in Halive. by destruct Halive.
    + inv_bind Hex. injection Hex as <-. rewrite Hgone in Halive. by destruct Halive.
    + inv_bind Hex. injection Hex as <-. rewrite Hgone in Halive. by destruct Halive.
  - intros [->|(src & Hne & ->)]; simpl in Hex; (split; [done|]).
    + apply dtor_Ok in Hex as (c & fs & Hc & Hfs & ->). simpl.
      rewrite (destroy_if_set_lookup _ _ _ h Hfs). rewrite Hw in Hc. injection Hc as <-.
      simpl. by case_decide.
    + apply move_assign_Ok in Hex as (t & c & Ht & Hc & [[? _]|(_ & fs & Hfs & ->)]);
        [congruence|].
      simpl. rewrite (destroy_if_set_lookup _ _ _ h Hfs). rewrite Hw in Ht.
      injection Ht as <-. simpl. by case_decide.
Qed.

Lemma move_transfers op σ σ' w h (dst : string) :
  wf σ → owns σ w h → exec op σ = Ok σ' →
  dst ≠ w → op = OpMoveCtor dst w ∨ op = OpMoveAssign dst w →
  frames σ' !! h = frames σ !! h ∧ owns σ' dst h ∧
  tasks σ' !! w = Some (mkCoTask None).
Proof.
  intros Hwf Hw Hex Hne Hop. pose proof (wf_unique σ Hwf) as Hu. unfold owns in *.
  destruct Hop as [->| ->]; simpl in Hex.
  - apply move_construct_Ok in Hex as (_ & c & Hc & ->). simpl.
    rewrite Hw in Hc. injection Hc as <-. simpl.
    rewrite lookup_insert_eq, lookup_insert_ne, lookup_insert_eq by done. done.
  - apply move_assign_Ok in Hex as (t & c & Ht & Hc & [[? _]|(_ & fs & Hfs & ->)]);
      [done|].
    simpl. rewrite Hw in Hc. injection Hc as <-. simpl.
    rewrite lookup_insert_eq, lookup_insert_ne, lookup_insert_eq by done.
    split; [|done]. rewrite (destroy_if_set_lookup _ _ _ h Hfs).
    case_decide as E; [|done]. destruct t as [ht]; simpl in E; subst ht.
    exfalso. apply Hne. eapply Hu; eauto.
Qed.

(** C2 (as the code has it): the frame behind the handle that a CoTask owns
    is destroyed by a step exactly when that step destroys the CoTask or
    move-assigns another CoTask over it.  Moving out of a CoTask destroys
    nothing: the frame stays as it is, the destination owns the handle and
    the source holds the null handle. *)
Theorem handle_destroyed_iff op σ σ' w h :
  wf σ → owns σ w h → exec op σ = Ok σ' →
  (destroyed h σ σ' ↔ op = OpDtor w ∨ assigned_over op w) ∧
  (∀ dst : string, dst ≠ w → op = OpMoveCtor dst w ∨ op = OpMoveAssign dst w →
     frames σ' !! h = frames σ !! h ∧ owns σ' dst h ∧
     tasks σ' !! w = Some (mkCoTask None)).
Proof.
  intros Hwf Hw Hex. split.
  - by apply destroyed_by_step.
  - intros dst. by apply move_transfers.
Qed.

(** X12: in coroutines.cpp, where CoTask has no move operation, the frame goes
    exactly when its CoTask is destroyed. *)
Lemma handle_destroyed_without_moves op σ σ' w h :
  is_move op = false → wf σ → owns σ w h → exec op σ = Ok σ' →
  (destroyed h σ σ' ↔ op = OpDtor w).
Proof.
  intros Hm Hwf Hw Hex. rewrite (destroyed_by_step op σ σ' w h Hwf Hw Hex).
  split; [|by left]. intros [?|(src & _ & ->)]; [done|discriminate].
Qed.
End HandleOwnership.

(** ** Resumption *)

Section Resumption.
Context {T U : Type} `{!ReturnType U}.
Implicit Types (σ : World T U) (p : Promise T U) (k : Body T U)
  (f : Frame (Promise T U) T U) (h : nat) (op : Op T U).

Lemma continuation_not_done f k : continuation f = Some k → done f = false.
Proof. unfold done, continuation. by destruct (status f). Qed.

Lemma not_done_continuation f : done f = false → ∃ k, continuation f = Some k.
Proof. unfold done, continuation. destruct (status f); eauto. discriminate. Qed.

Lemma handle_resume_continuation f k out :
  continuation f = Some k → handle_resume f out = run (promise f) k out.
Proof.
  unfold continuation, handle_resume. destruct (status f); intros [= ->]; done.
Qed.

(** The promise after a stretch is the promise before it, changed by the one
    call that the stretch makes. *)
Lemma run_promise p k out f out' :
  run p k out = Ok (Some f, out') → promise f = apply_call (next_call k) p.
Proof.
  revert p out. induction k as [s k IH|a k IH|x k IH|y| |]; intros p out; simpl.
  - apply IH.
  - destruct a; simpl; [|apply IH]. by intros [= <- <-].
  - by intros [= <- <-].
  - by intros [= <- <-].
  - destruct (returns_void U); [|discriminate]. by intros [= <- <-].
  - discriminate.
Qed.

(** A stretch ends at the final suspend point exactly when it returns. *)
Lemma run_done p k out f out' :
  run p k out = Ok (Some f, out') →
  done f = match next_call k with
           | CallReturnValue _ | CallReturnVoid => true
           | _ => false
           end.
Proof.
  revert p out. induction k as [s k IH|a k IH|x k IH|y| |]; intros p out; simpl.
  - apply IH.
  - destruct a; simpl; [|apply IH]. by intros [= <- <-].
  - by intros [= <- <-].
  - by intros [= <- <-].
  - destruct (returns_void U); [|discriminate]. by intros [= <- <-].
  - discriminate.
Qed.

(** C9: [CoTask::resume] returns false and leaves the world as it is when the
    handle is null or the coroutine is done.  Otherwise it resumes the
    coroutine once and returns whether the coroutine is not done afterwards;
    the new world differs from the old one in the resumed frame and in the
    output only.  This is for a resumed stretch with defined behaviour that
    returns to the caller: one that raises no exception, and that does not
    flow off the end of a body whose promise declares no [return_void]. *)
Theorem resume_spec (ct : CoTask) σ :
  (handle_ ct = None → CoTask_resume ct σ = Ok (false, σ)) ∧
  (∀ h f, handle_ ct = Some h → frames σ !! h = Some f → done f = true →
     CoTask_resume ct σ = Ok (false, σ)) ∧
  (∀ h f k, handle_ ct = Some h → frames σ !! h = Some f →
     continuation f = Some k → throws_next k = false → runs_off_next k = false →
     ∃ f' out, handle_resume f (cout σ) = Ok (Some f', out) ∧
       CoTask_resume ct σ
       = Ok (negb (done f'), mkWorld (<[h := f']> (frames σ)) (tasks σ) out)).
Proof.
  unfold CoTask_resume. split; [|split].
  - by intros ->.
  - by intros h f -> -> ->.
  - intros h f k -> -> Hk Hn Hr. rewrite (continuation_not_done _ _ Hk).
    rewrite (handle_resume_continuation _ _ _ Hk).
    destruct (run_suspends (promise f) k (cout σ) Hn Hr) as (f' & out & E).
    exists f', out. rewrite E. done.
Qed.

(** A change to a frame is the work of [resume] on the CoTask that owns it. *)
Lemma frame_changed_by_resume op σ σ' h f f' :
  exec op σ = Ok σ' → frames σ !! h = Some f → frames σ' !! h = Some f' →
  f' = f ∨
  ∃ (w : string) k out out', op = OpResume w ∧ owns σ w h ∧
    continuation f = Some k ∧ run (promise f) k out = Ok (Some f', out').
Proof.
  intros Hex Hf Hf'.
  destruct op as [w0 b|dst src|this c0|w0|w0|w0|w0]; simpl in Hex.
  - apply call_Ok in Hex as [_ ->]. simpl in Hf'. left.
    rewrite lookup_insert_ne in Hf'; [congruence|].
    intros E. rewrite <-E, fresh_handle_dead in Hf. done.
  - apply move_construct_Ok in Hex as (_ & c & _ & ->). simpl in Hf'. left. congruence.
  - apply move_assign_Ok in Hex as (t & c & Ht & Hc & [[-> ->]|(Hne & fs & Hfs & ->)]);
      left; [congruence|].
    simpl in Hf'. rewrite (destroy_if_set_lookup _ _ _ h Hfs) in Hf'.
    case_decide; [done|congruence].
  - apply dtor_Ok in Hex as (c & fs & Hc & Hfs & ->). left.
    simpl in Hf'. rewrite (destroy_if_set_lookup _ _ _ h Hfs) in Hf'.
    case_decide; [done|congruence].
  - inv_bind Hex. destruct a as [again σ1]. injection Hex as ->.
    apply resume_Ok in E as (c & Hc & E).
    apply CoTask_resume_Ok in E
      as [(_ & -> & _)|(h1 & f1 & f1' & o & Hh1 & Hf1 & Hd & Hr & _ & ->)].
    { left. congruence. }
    simpl in Hf'. destruct (decide (h1 = h)) as [->|Hne].
    + rewrite lookup_insert_eq in Hf'. injection Hf' as ->.
      rewrite Hf in Hf1. injection Hf1 as <-.
      destruct (not_done_continuation f Hd) as [k Hk].
      rewrite (handle_resume_continuation _ _ _ Hk) in Hr.
      right. exists w0, k, (cout σ), o. unfold owns. destruct c as [hc]; simpl in Hh1.
      subst hc. done.
    + rewrite lookup_insert_ne in Hf' by done. left. congruence.
  - inv_bind Hex. injection Hex as <-. left. congruence.
  - inv_bind Hex. injection Hex as <-. left. congruence.
Qed.

(** C6: a promise is its two slots, one yielded value and one returned value.
    Reading through [get_value] or [get_result] changes nothing.  Whatever a
    statement of the program does, the promise of a frame that lives on is
    the same afterwards, unless the statement is [resume] on the owner of the
    frame: then it is the old promise after the one call on [yield_value],
    [return_value] or [return_void] that the resumed stretch of the body
    makes. *)
Theorem promise_frame_rule :
  (∀ p q, x_ p = x_ q → y_ p = y_ q → p = q) ∧
  (∀ (w : string) σ σ', exec (OpGetValue w) σ = Ok σ' ∨ exec (OpGetResult w) σ = Ok σ' →
     σ' = σ) ∧
  (∀ op σ σ' h f f',
     exec op σ = Ok σ' → frames σ !! h = Some f → frames σ' !! h = Some f' →
     promise f' = promise f ∨
     ∃ (w : string) k, op = OpResume w ∧ owns σ w h ∧ continuation f = Some k ∧
       promise f' = apply_call (next_call k) (promise f)).
Proof.
  split; [|split].
  - intros [x y] [x' y']; simpl. by intros -> ->.
  - intros w σ σ' [H|H]; simpl in H; inv_bind H; by injection H as <-.
  - intros op σ σ' h f f' Hex Hf Hf'.
    destruct (frame_changed_by_resume op σ σ' h f f' Hex Hf Hf')
      as [->|(w & k & out & out' & -> & Hw & Hk & Hr)]; [by left|].
    right. exists w, k. split; [done|]. split; [done|]. split; [done|].
    by eapply run_promise.
Qed.
End Resumption.

(** ** The suspension protocol *)

Section Protocol.
Context {T U : Type} `{!ReturnType U}.
Implicit Types (σ : World T U) (p : Promise T U) (k : Body T U)
  (f : Frame (Promise T U) T U) (h : nat) (op : Op T U).





(** A body that does not end in an exception runs, stretch by stretch, to its
    final suspend point. *)
Lemma run_towards_end p k out :
  ends_in_throw k = false → runs_off_end k = false →
  ∃ f out', run p k out = Ok (Some f, out') ∧
    (done f = true ∨
     ∃ k', continuation f = Some k' ∧ ends_in_throw k' = false ∧
       runs_off_end k' = false ∧ (body_size k' < body_size k)%nat).
Proof.
  revert p out. induction k as [s k IH|a k IH|x k IH|y| |]; intros p out Hk Hr;
    simpl in *; try discriminate.
  - destruct (IH p (out +:+ s) Hk Hr) as (f & o & E & [Hd|(k' & Hc & He & Hr' & Hs)]);
      exists f, o; (split; [done|]); [by left|].
    right. exists k'. repeat split; try done. lia.
  - destruct a; simpl.
    + eexists _, _. split; [done|]. right. exists k. repeat split; try done. lia.
    + destruct (IH p out Hk Hr) as (f & o & E & [Hd|(k' & Hc & He & Hr' & Hs)]);
        exists f, o; (split; [done|]); [by left|].
      right. exists k'. repeat split; try done. lia.
  - eexists _, _. split; [done|]. right. exists k. repeat split; try done. lia.
  - eexists _, _. split; [done|]. by left.
  - destruct (returns_void U); [|discriminate]. eexists _, _. split; [done|]. by left.
Qed.

Lemma poll_towards_end (fuel : nat) (w : string) σ h f k :
  ends_in_throw k = false → runs_off_end k = false → (body_size k ≤ fuel)%nat →
  owns σ w h → frames σ !! h = Some f → continuation f = Some k →
  ∃ σ' f', while_resume fuel w Ok σ = Ok σ' ∧ tasks σ' = tasks σ ∧
    frames σ' !! h = Some f' ∧ done f' = true.
Proof.
  revert σ f k. induction fuel as [|fuel IH]; intros σ f k He Hr Hs Hw Hf Hk.
  - destruct k; simpl in Hs; lia.
  - simpl. unfold resume, task. unfold owns in Hw. rewrite Hw. simpl.
    unfold CoTask_resume. simpl. rewrite Hf, (continuation_not_done _ _ Hk).
    rewrite (handle_resume_continuation _ _ _ Hk).
    destruct (run_towards_end (promise f) k (cout σ) He Hr)
      as (f1 & o & E & [Hd|(k' & Hc & He' & Hr' & Hs')]); rewrite E; simpl.
    + rewrite Hd. simpl. eexists _, f1. split; [done|]. simpl.
      split; [done|]. split; [apply lookup_insert_eq|done].
    + rewrite (continuation_not_done _ _ Hc). simpl.
      destruct (IH (mkWorld (<[h := f1]> (frames σ)) (tasks σ) o) f1 k')
        as (σ' & f' & Hpoll & Ht & Hf' & Hd);
        [done|done|lia|done|apply lookup_insert_eq|done|].
      exists σ', f'. done.
Qed.

Lemma poll_completes (body : Body T U) (fuel : nat) (out : string) :
  ends_in_throw body = false → runs_off_end body = false → (body_size body ≤ fuel)%nat →
  ∃ σ' h f', (σ ← call "cpf" body (start out); while_resume fuel "cpf" Ok σ) = Ok σ' ∧
    owns σ' "cpf" h ∧ frames σ' !! h = Some f' ∧ done f' = true.
Proof.
  intros He Hr Hs. unfold call, start. simpl. rewrite lookup_empty. simpl.
  set (h := fresh (dom (∅ : gmap nat (Frame (Promise T U) T U)))).
  set (f := mkFrame (mkPromise None None) (AtInitialSuspend body)
            : Frame (Promise T U) T U).
  destruct (poll_towards_end fuel "cpf"
              (mkWorld (<[h := f]> ∅) (<["cpf" := get_return_object h]> ∅) out) h f body)
    as (σ' & f' & Hpoll & Ht & Hf' & Hd).
  - exact He.
  - exact Hr.
  - exact Hs.
  - unfold owns. simpl. apply lookup_insert_eq.
  - simpl. apply lookup_insert_eq.
  - done.
  - exists σ', h, f'. split; [exact Hpoll|]. split; [|done].
    unfold owns. rewrite Ht. simpl. apply lookup_insert_eq.
Qed.

(** The resumption in which the body returns [y]. *)
Lemma resume_returning (ct : CoTask) σ h f k (y : U) :
  handle_ ct = Some h → frames σ !! h = Some f →
  continuation f = Some k → next_call k = CallReturnValue y →
  ∃ σ' f', CoTask_resume ct σ = Ok (false, σ') ∧
    frames σ' !! h = Some f' ∧ done f' = true ∧
    CoTask_get_result ct σ' = Ok y.
Proof.
  intros Hh Hf Hk Hc.
  assert (throws_next k = false ∧ runs_off_next k = false) as [Hn Hr].
  { clear -Hc. induction k as [s k IH|a k IH|x k IH|y'| |]; simpl in *; try done.
    - by apply IH.
    - destruct a; simpl in *; [done|by apply IH]. }
  destruct (run_suspends (promise f) k (cout σ) Hn Hr) as (f' & out & E).
  pose proof (run_done _ _ _ _ _ E) as Hd. rewrite Hc in Hd.
  pose proof (run_promise _ _ _ _ _ E) as Hp. rewrite Hc in Hp. simpl in Hp.
  exists (mkWorld (<[h := f']> (frames σ)) (tasks σ) out), f'.
  unfold CoTask_resume, CoTask_get_result, handle_promise.
  rewrite Hh, Hf, (continuation_not_done _ _ Hk), (handle_resume_continuation _ _ _ Hk), E.
  simpl. rewrite Hd, lookup_insert_eq. simpl. rewrite Hp. done.
Qed.

(** C4: the promise types make every coroutine suspend at its start, at each
    [co_yield] and at its end.  [initial_suspend] and [final_suspend] return
    [suspend_always], and [yield_value] stores its argument in [x_] and
    returns [suspend_always].  So a call runs nothing of the body and writes
    nothing; a [co_yield x] stores [x] and suspends with the rest of the body
    pending; [co_return y] stores [y] and suspends at the final suspend
    point, and so does the end of the body under a promise that declares
    [return_void].  After the resumption in which the body returns [y],
    [resume] answers false, the frame is alive and done, and [get_result]
    reads [y].  Polling a coroutine whose body raises no exception, and does
    not flow off its end under a promise without [return_void], ends, within
    as many resumptions as the body has actions, with the frame alive at its
    final suspend point. *)
Theorem suspension_protocol :
  (∀ p, initial_suspend p = suspend_always ∧ final_suspend p = suspend_always ∧
        ∀ x : T, yield_value x p = (mkPromise (Some x) (y_ p), suspend_always)) ∧
  (∀ (body : Body T U) out,
     coroutine_call body out
     = Ok (Some (mkFrame (mkPromise None None) (AtInitialSuspend body)), out)) ∧
  (∀ p (x : T) k out,
     run p (CoYield x k) out
     = Ok (Some (mkFrame (mkPromise (Some x) (y_ p)) (AtYield k)), out)) ∧
  (∀ p (y : U) out,
     run p (CoReturn y) out
     = Ok (Some (mkFrame (mkPromise (x_ p) (Some y)) AtFinalSuspend), out)) ∧
  (∀ p out,
     returns_void U = true →
     run p (CoReturnVoid : Body T U) out = Ok (Some (mkFrame p AtFinalSuspend), out)) ∧
  (∀ (ct : CoTask) σ h f k (y : U),
     handle_ ct = Some h → frames σ !! h = Some f →
     continuation f = Some k → next_call k = CallReturnValue y →
     ∃ σ' f', CoTask_resume ct σ = Ok (false, σ') ∧
       frames σ' !! h = Some f' ∧ done f' = true ∧
       CoTask_get_result ct σ' = Ok y) ∧
  (∀ (body : Body T U) (fuel : nat) (out : string),
     ends_in_throw body = false → runs_off_end body = false →
     (body_size body ≤ fuel)%nat →
     ∃ σ' h f', (σ ← call "cpf" body (start out); while_resume fuel "cpf" Ok σ) = Ok σ' ∧
       owns σ' "cpf" h ∧ frames σ' !! h = Some f' ∧ done f' = true).
Proof.
  split; [done|]. split; [done|]. split; [done|]. split; [done|].
  split; [by intros p out Hv; simpl; rewrite Hv|].
  split.
  - apply resume_returning.
  - apply poll_completes.
Qed.
End Protocol.

(** ** Exceptions *)

Section Exceptions.
Context {T U : Type} `{!ReturnType U}.
Implicit Types (σ : World T U) (p : Promise T U) (k : Body T U)
  (f : Frame (Promise T U) T U) (h : nat).

(** A body that ends in an exception either throws in its next stretch or
    suspends with a shorter rest that still ends in an exception. *)
Lemma run_towards_throw p k out :
  ends_in_throw k = true →
  run p k out = Terminated ∨
  ∃ f out' k', run p k out = Ok (Some f, out') ∧ continuation f = Some k' ∧
    ends_in_throw k' = true ∧ (body_size k' < body_size k)%nat.
Proof.
  revert p out. induction k as [s k IH|a k IH|x k IH|y| |]; intros p out Hk; simpl in *;
    try discriminate.
  - destruct (IH p (out +:+ s) Hk) as [E|(f & o & k' & E & Hc & He & Hs)]; [by left|].
    right. exists f, o, k'. repeat split; try done. lia.
  - destruct a; simpl.
    + right. eexists _, _, k. repeat split; try done. lia.
    + destruct (IH p out Hk) as [E|(f & o & k' & E & Hc & He & Hs)]; [by left|].
      right. exists f, o, k'. repeat split; try done. lia.
  - right. eexists _, _, k. repeat split; try done. lia.
  - by left.
Qed.

(** Polling such a coroutine with [while(w.resume()) {}] ends in
    [std::terminate]. *)
Lemma poll_towards_throw (fuel : nat) (w : string) σ h f k :
  ends_in_throw k = true → (body_size k ≤ fuel)%nat →
  owns σ w h → frames σ !! h = Some f → continuation f = Some k →
  while_resume fuel w Ok σ = Terminated.
Proof.
  revert σ f k. induction fuel as [|fuel IH]; intros σ f k He Hs Hw Hf Hk.
  - destruct k; simpl in Hs; lia.
  - simpl. unfold resume, task. unfold owns in Hw. rewrite Hw. simpl.
    unfold CoTask_resume. simpl. rewrite Hf, (continuation_not_done _ _ Hk).
    rewrite (handle_resume_continuation _ _ _ Hk).
    destruct (run_towards_throw (promise f) k (cout σ) He)
      as [E|(f' & o & k' & E & Hc & He' & Hs')]; rewrite E; [done|].
    simpl. rewrite (continuation_not_done _ _ Hc). simpl.
    eapply (IH _ f' k'); [done|lia|done| |done].
    simpl. apply lookup_insert_eq.
Qed.

(** C5: an exception that leaves the body of a coroutine ends the process.
    [unhandled_exception] calls [std::terminate]; a resumption whose stretch
    of the body throws does not return; polling a coroutine whose body ends
    in an exception ends in termination, whatever would have followed the
    loop; nothing that is sequenced after a terminated run is run. *)
Theorem exception_is_fatal :
  (∀ p, unhandled_exception p = Terminated) ∧
  (∀ (ct : CoTask) σ h f k,
     handle_ ct = Some h → frames σ !! h = Some f → continuation f = Some k →
     throws_next k = true → CoTask_resume ct σ = Terminated) ∧
  (∀ (body : Body T U) (fuel : nat) (out : string) (A : Type) (rest : World T U → Result A),
     ends_in_throw body = true → (body_size body ≤ fuel)%nat →
     (σ ← call "cpf" body (start out); σ ← while_resume fuel "cpf" Ok σ; rest σ)
     = Terminated) ∧
  (∀ (A B : Type) (rest : A → Result B), Terminated ≫= rest = Terminated).
Proof.
  split; [done|]. split; [|split; [|done]].
  - intros ct σ h f k Hh Hf Hk Ht. unfold CoTask_resume.
    rewrite Hh, Hf, (continuation_not_done _ _ Hk), (handle_resume_continuation _ _ _ Hk).
    by rewrite run_throws.
  - intros body fuel out A rest He Hs.
    unfold call, start. simpl. rewrite lookup_empty. simpl.
    erewrite poll_towards_throw; [done|exact He|exact Hs| | |].
    + unfold owns. simpl. apply lookup_insert_eq.
    + simpl. apply lookup_insert_eq.
    + done.
Qed.
End Exceptions.

(** ** The generator [sequence] *)

Section Sequence.
Implicit Types (ty : IntType) (n : Z).

Lemma int_pow_split ty :
  2 ^ Z.pos (width ty) = 2 * 2 ^ (Z.pos (width ty) - 1) ∧ 0 < 2 ^ (Z.pos (width ty) - 1).
Proof.
  split.
  - rewrite <-Z.pow_succ_r by lia. f_equal. lia.
  - apply Z.pow_pos_nonneg; lia.
Qed.

(** No wrap-around inside the range of the type. *)
Lemma wrap_in_range ty z : in_range ty z → wrap ty z = z.
Proof.
  unfold in_range, int_min, int_max, wrap.
  destruct (int_pow_split ty) as [E Hpos]. destruct (is_signed ty); intros Hz.
  - rewrite Z.mod_small; lia.
  - rewrite Z.mod_small; lia.
Qed.

Lemma int_min_nonpos ty : int_min ty ≤ 0.
Proof.
  unfold int_min. destruct (int_pow_split ty) as [_ Hpos]. destruct (is_signed ty); lia.
Qed.

(** The loop of [sequence] builds the yields of [x], [x + 1], ..., [n - 1]
    and never wraps. *)
Lemma sequence_loop_spec ty (fuel : nat) n (x : Z) :
  in_range ty n → 0 ≤ x → (Z.to_nat (n - x) < fuel)%nat →
  sequence_loop ty fuel n x = Ok (yield_all (seqZ x (n - x))).
Proof.
  intros Hn. revert x. induction fuel as [|fuel IH]; intros x Hx Hfuel; [lia|].
  cbn [sequence_loop post_incr]. destruct (Z.ltb_spec x n) as [Hlt|Hge].
  - rewrite wrap_in_range.
    2:{ pose proof (int_min_nonpos ty). unfold in_range in *. lia. }
    rewrite IH by lia. rewrite (seqZ_cons x (n - x)) by lia.
    replace (Z.succ x) with (x + 1) by lia.
    replace (Z.pred (n - x)) with (n - (x + 1)) by lia. done.
  - rewrite seqZ_nil by lia. done.
Qed.

(** Walking a generator whose body is still to yield the values of [l]. *)
Lemma generator_loop_yield_all {T A : Type} (l : list T) (fuel : nat)
    (p : generator_promise T) (visit : T → A * string → A * string) (s : A * string) :
  (length l < fuel)%nat →
  ('(f, out) ← run p (yield_all l) s.2 ≫= alive; generator_loop fuel f visit (s.1, out))
  = Ok (foldl (λ s x, visit x s) s l).
Proof.
  revert fuel p s. induction l as [|x l IH]; intros fuel p [a out] Hfuel; simpl in *.
  - destruct fuel; [lia|]. done.
  - destruct fuel as [|fuel]; [lia|]. simpl.
    destruct (visit x (a, out)) as [a' out'] eqn:Ev.
    rewrite <-(IH fuel (mkGeneratorPromise (Some x)) (a', out')) by lia. done.
Qed.

Lemma range_fold_yield_all {T A : Type} (l : list T) (fuel : nat)
    (visit : T → A * string → A * string) (s : A * string) :
  (length l < fuel)%nat →
  range_fold fuel (mkFrame (mkGeneratorPromise None) (AtInitialSuspend (yield_all l))
                   : generator T) visit s
  = Ok (foldl (λ s x, visit x s) s l).
Proof.
  intros Hfuel. destruct s as [a out].
  by rewrite <-(generator_loop_yield_all l fuel (mkGeneratorPromise None) visit (a, out)).
Qed.

Lemma sequence_spec ty (fuel : nat) n out :
  in_range ty n → (Z.to_nat n < fuel)%nat →
  sequence ty fuel n out
  = Ok (mkFrame (mkGeneratorPromise None) (AtInitialSuspend (yield_all (seqZ 0 n))), out).
Proof.
  intros Hn Hfuel. unfold sequence.
  rewrite sequence_loop_spec by (done || lia).
  replace (n - 0) with n by lia. done.
Qed.

Lemma collect_foldl {T : Type} (l acc : list T) (out : string) :
  foldl (λ (s : list T * string) x, let '(v, out) := s in (v ++ [x], out)) (acc, out) l
  = (acc ++ l, out).
Proof.
  revert acc. induction l as [|x l IH]; intros acc; simpl.
  - by rewrite app_nil_r.
  - by rewrite IH, <-app_assoc.
Qed.

(** C8: for every integral type and every value [n] of it, the generator
    [sequence(n)], walked to its end, gives exactly the values 0, 1, ...,
    [n - 1] in this order: the value at position [i] is [i], there are [n]
    of them when [n] is positive, and none when [n <= 0]. *)
Theorem sequence_yields ty n (fuel : nat) (out : string) :
  in_range ty n → (Z.to_nat n < fuel)%nat →
  ∃ l : list Z,
    ('(g, out) ← sequence ty fuel n out; to_vector fuel g out) = Ok (l, out) ∧
    length l = Z.to_nat n ∧
    (∀ i : nat, (i < Z.to_nat n)%nat → l !! i = Some (Z.of_nat i)) ∧
    (∀ i j a b, l !! i = Some a → l !! j = Some b → (i < j)%nat → a < b) ∧
    (n ≤ 0 → l = []).
Proof.
  intros Hn Hfuel. exists (seqZ 0 n). split; [|split; [|split; [|split]]].
  - rewrite sequence_spec by done. simpl. unfold to_vector.
    rewrite range_fold_yield_all by (rewrite length_seqZ; lia).
    apply (f_equal Ok), (collect_foldl (seqZ 0 n) [] out).
  - apply length_seqZ.
  - intros i Hi. rewrite lookup_seqZ_lt by lia. done.
  - intros i j a b Ha Hb Hij. apply lookup_seqZ in Ha as [-> _], Hb as [-> _]. lia.
  - apply seqZ_nil.
Qed.
End Sequence.

(** ** The examples, run *)

(** C1: each example prints the values that its counter goes through, one per
    line.  The block of [co_await_int] prints 0 and 1; the loop around
    [co_yield_int] prints 0 and 1; the block of [co_return_int] prints the
    yielded 0 and then the returned result 1; [print_range(sequence(10))]
    prints 0, 1, ..., 9 and an empty line.  The three [main] functions write
    these blocks, separated by empty lines, whatever loop bound from 11
    upwards the model is given. *)
Theorem printed_values (fuel : nat) :
  (11 ≤ fuel)%nat →
  block_co_await_int fuel "" = Ok (lines [0; 1]) ∧
  block_co_yield_int fuel "" = Ok (lines [0; 1]) ∧
  block_co_return_int fuel "" = Ok (lines [0; 1]) ∧
  (σ ← call "cpf" co_return_int (start "");
   σ ← while_resume fuel "cpf"
         (λ σ, v ← get_value "cpf" σ; Ok (write nl (write (show v) σ))) σ;
   r ← get_result "cpf" σ; Ok (cout σ, r)) = Ok (lines [0], 1) ∧
  ('(g, out) ← sequence int fuel 10 ""; print_range fuel g out)
  = Ok (lines [0; 1; 2; 3; 4; 5; 6; 7; 8; 9] +:+ nl) ∧
  CoroutinesCommon.main fuel
  = Ok (lines [0; 1] +:+ nl +:+ lines [0; 1] +:+ nl +:+ lines [0; 1]) ∧
  MovableCoTask.main fuel
  = Ok (lines [0; 1] +:+ nl +:+ lines [0; 1] +:+ nl +:+ lines [0; 1] +:+ nl) ∧
  GeneratorExample.main fuel
  = Ok (lines [0; 1; 2; 3; 4; 5; 6; 7; 8; 9] +:+ nl
        +:+ lines [0; 1; 2; 3; 4; 5; 6; 7; 8; 9] +:+ nl).
Proof.
  intros Hfuel. do 11 (destruct fuel as [|fuel]; [lia|]).
  repeat split; vm_compute; reflexivity.
Qed.

Lemma printed_values_witness :
  (11 ≤ 11)%nat ∧
  CoroutinesCommon.main 11
  = Ok (lines [0; 1] +:+ nl +:+ lines [0; 1] +:+ nl +:+ lines [0; 1]).
Proof.
  split; [lia|]. apply (printed_values 11). lia.
Defined.

(** ** The statements at work on small programs *)

Lemma one_task_reached : exec_all [OpCall "a" co_yield_int] (start "") = Ok one_task.
Proof. vm_compute. reflexivity. Qed.

Lemma one_task_wf : wf one_task.
Proof. exact (exec_all_wf _ _ _ (wf_start "") one_task_reached). Qed.

Lemma moved_task_reached :
  exec_all [OpCall "a" co_yield_int; OpMoveCtor "b" "a"] (start "") = Ok moved_task.
Proof. vm_compute. reflexivity. Qed.

Lemma single_owner_witness :
  exec_all [OpCall "a" co_yield_int; OpMoveCtor "b" "a"] (start "") = Ok moved_task ∧
  (∀ w1 w2 h, owns moved_task w1 h → owns moved_task w2 h → w1 = w2).
Proof.
  split; [exact moved_task_reached|].
  exact (proj1 (single_owner _ "" moved_task moved_task_reached)).
Defined.

(** Moving out of [a] leaves the frame that [a] owned alive, so the frame is
    not destroyed when its wrapper is moved from. *)
Lemma moved_from_keeps_frame : ¬ @destroyed_on_move_from Z void _.
Proof.
  intros Hclaim.
  destruct (Hclaim (OpMoveCtor "b" "a") one_task moved_task "a" 0%nat) as [_ Hd].
  - exact one_task_wf.
  - reflexivity.
  - vm_compute. reflexivity.
  - destruct Hd as [_ Hgone].
    + right. exists "b". split; [discriminate|by left].
    + vm_compute in Hgone. discriminate.
Qed.

Lemma handle_destroyed_iff_witness :
  wf one_task ∧ owns one_task "a" 0 ∧
  exec (OpMoveCtor "b" "a") one_task = Ok moved_task ∧
  ¬ destroyed 0 one_task moved_task ∧ owns moved_task "b" 0 ∧
  tasks moved_task !! "a" = Some (mkCoTask None).
Proof.
  assert (exec (OpMoveCtor "b" "a") one_task = Ok moved_task) as Hex
    by (vm_compute; reflexivity).
  assert (owns one_task "a" 0) as Hw by reflexivity.
  destruct (handle_destroyed_iff _ _ _ "a" 0%nat one_task_wf Hw Hex) as [Hiff Hmove].
  split; [exact one_task_wf|]. split; [exact Hw|]. split; [exact Hex|].
  split.
  - intros Hd. apply Hiff in Hd as [?|(src & _ & ?)]; discriminate.
  - apply (Hmove "b"); [discriminate|by left].
Defined.

Lemma resume_spec_witness :
  handle_ (mkCoTask (Some 0%nat)) = Some 0%nat ∧
  frames yielded_task !! 0%nat = Some yielded_frame ∧
  continuation yielded_frame = Some (CoReturn 1) ∧
  throws_next (CoReturn 1 : Body Z Z) = false ∧
  runs_off_next (CoReturn 1 : Body Z Z) = false ∧
  ∃ f' out, handle_resume yielded_frame "" = Ok (Some f', out) ∧
    CoTask_resume (mkCoTask (Some 0%nat)) yielded_task
    = Ok (negb (done f'), mkWorld (<[0%nat := f']> (frames yielded_task))
                            (tasks yielded_task) out).
Proof.
  split; [reflexivity|]. split; [reflexivity|]. split; [reflexivity|].
  split; [reflexivity|]. split; [reflexivity|].
  apply (proj2 (proj2 (resume_spec (mkCoTask (Some 0%nat)) yielded_task))
           0%nat yielded_frame (CoReturn 1)); reflexivity.
Defined.

Lemma suspension_protocol_witness :
  next_call (CoReturn 1 : Body Z Z) = CallReturnValue 1 ∧
  (∃ σ' f', CoTask_resume (mkCoTask (Some 0%nat)) yielded_task = Ok (false, σ') ∧
     frames σ' !! 0%nat = Some f' ∧ done f' = true ∧
     CoTask_get_result (mkCoTask (Some 0%nat)) σ' = Ok 1) ∧
  returns_void void = true ∧
  run (mkPromise None None) (CoReturnVoid : Body Z void) ""
  = Ok (Some (mkFrame (mkPromise None None) AtFinalSuspend), "") ∧
  ends_in_throw co_yield_int = false ∧ runs_off_end co_yield_int = false ∧
  (body_size co_yield_int ≤ 3)%nat ∧
  ∃ σ' h f',
    (σ ← call "cpf" co_yield_int (start ""); while_resume 3 "cpf" Ok σ) = Ok σ' ∧
    owns σ' "cpf" h ∧ frames σ' !! h = Some f' ∧ done f' = true.
Proof.
  assert (body_size co_yield_int ≤ 3)%nat as Hsize by (simpl; lia).
  destruct (@suspension_protocol Z Z _) as (_ & _ & _ & _ & _ & Hreturn & _).
  destruct (@suspension_protocol Z void _) as (_ & _ & _ & _ & Hend & _ & Hpoll).
  split; [reflexivity|]. split.
  { apply (Hreturn (mkCoTask (Some 0%nat)) yielded_task 0%nat yielded_frame (CoReturn 1) 1);
      reflexivity. }
  split; [reflexivity|]. split; [apply Hend; reflexivity|].
  split; [reflexivity|]. split; [reflexivity|]. split; [exact Hsize|].
  apply Hpoll; [reflexivity|reflexivity|exact Hsize].
Defined.

Lemma exception_is_fatal_witness :
  ends_in_throw throwing_body = true ∧ (body_size throwing_body ≤ 2)%nat ∧
  throws_next (Throw : Body Z void) = true ∧
  CoTask_resume (mkCoTask (Some 0%nat)) throwing_task = Terminated ∧
  (σ ← call "cpf" throwing_body (start ""); σ ← while_resume 2 "cpf" Ok σ; Ok (cout σ))
  = Terminated.
Proof.
  destruct (@exception_is_fatal Z void _) as (_ & Hresume & Hpoll & _).
  split; [reflexivity|]. split; [simpl; lia|]. split; [reflexivity|]. split.
  - apply (Hresume (mkCoTask (Some 0%nat)) throwing_task 0%nat
             (mkFrame (mkPromise (Some 7) None) (AtYield Throw)) Throw); reflexivity.
  - apply (Hpoll throwing_body 2%nat "" string (λ σ, Ok (cout σ))); [reflexivity|simpl; lia].
Defined.

Lemma promise_frame_rule_witness :
  exec (OpResume "cpf") yielded_task
  = Ok (mkWorld {[0%nat := mkFrame (mkPromise (Some 0) (Some 1)) AtFinalSuspend]}
          {["cpf" := mkCoTask (Some 0%nat)]} "") ∧
  (mkPromise (Some 0) (Some 1) = promise yielded_frame ∨
   ∃ (w : string) k, (OpResume "cpf" : Op Z Z) = OpResume w ∧ owns yielded_task w 0 ∧
     continuation yielded_frame = Some k ∧
     mkPromise (Some 0) (Some 1) = apply_call (next_call k) (promise yielded_frame)).
Proof.
  assert (exec (OpResume "cpf") yielded_task
          = Ok (mkWorld {[0%nat := mkFrame (mkPromise (Some 0) (Some 1)) AtFinalSuspend]}
                  {["cpf" := mkCoTask (Some 0%nat)]} "")) as Hex
    by (vm_compute; reflexivity).
  split; [exact Hex|].
  destruct (@promise_frame_rule Z Z _) as (_ & _ & H).
  apply (H (OpResume "cpf") yielded_task _ 0%nat yielded_frame
           (mkFrame (mkPromise (Some 0) (Some 1)) AtFinalSuspend) Hex); reflexivity.
Defined.



Lemma sequence_yields_witness :
  in_range int 10 ∧ (Z.to_nat 10 < 11)%nat ∧
  ∃ l : list Z,
    ('(g, out) ← sequence int 11 10 ""; to_vector 11 g out) = Ok (l, "") ∧
    length l = Z.to_nat 10.
Proof.
  assert (in_range int 10) as Hn by (unfold in_range, int_min, int_max; simpl; lia).
  assert (Z.to_nat 10 < 11)%nat as Hfuel by (simpl; lia).
  split; [exact Hn|]. split; [exact Hfuel|].
  destruct (sequence_yields int 10 11 "" Hn Hfuel) as (l & Hl & Hlen & _).
  exists l. split; [exact Hl|exact Hlen].
Defined.

(** * Further properties of the code *)

(** ** Reading and resuming through a CoTask *)

Section Wrappers.
Context {T U : Type} `{!ReturnType U}.
Implicit Types (σ : World T U) (p : Promise T U) (k : Body T U)
  (f : Frame (Promise T U) T U) (h : nat) (op : Op T U).

(** X1: once [resume] has answered false it answers false again and changes
    nothing, however often it is called: the test on [done] keeps a finished
    coroutine from being resumed. *)
Theorem resume_false_again (ct : CoTask) σ σ' :
  CoTask_resume ct σ = Ok (false, σ') → CoTask_resume ct σ' = Ok (false, σ').
Proof.
  intros H. apply CoTask_resume_Ok in H
    as [(_ & -> & Hcase)|(h & f & f' & out & Hh & Hf & Hd & Hr & Hb & ->)].
  - unfold CoTask_resume. destruct Hcase as [->|(h & f & -> & -> & ->)]; done.
  - unfold CoTask_resume. rewrite Hh. simpl. rewrite lookup_insert_eq.
    destruct (done f'); [done|discriminate].
Qed.

Lemma run_to_yield p k out (x : T) :
  next_call k = CallYieldValue x →
  ∃ k' out', run p k out
             = Ok (Some (mkFrame (mkPromise (Some x) (y_ p)) (AtYield k')), out').
Proof.
  revert p out. induction k as [s k IH|a k IH|x' k IH|y| |]; intros p out; simpl;
    try discriminate.
  - apply IH.
  - destruct a; simpl; [discriminate|apply IH].
  - intros [= ->]. eauto.
Qed.

(** X2: when the stretch that [resume] runs ends in [co_yield x], [resume]
    answers true and [get_value] then reads [x]; what [get_result] reads is
    what it read before. *)
Theorem get_value_after_yield (ct : CoTask) σ h f k (x : T) :
  handle_ ct = Some h → frames σ !! h = Some f →
  continuation f = Some k → next_call k = CallYieldValue x →
  ∃ σ', CoTask_resume ct σ = Ok (true, σ') ∧
    CoTask_get_value ct σ' = Ok x ∧
    CoTask_get_result ct σ' = CoTask_get_result ct σ.
Proof.
  intros Hh Hf Hk Hc.
  destruct (run_to_yield (promise f) k (cout σ) x Hc) as (k' & out & E).
  eexists. unfold CoTask_resume, CoTask_get_value, CoTask_get_result, handle_promise.
  rewrite Hh, Hf, (continuation_not_done _ _ Hk), (handle_resume_continuation _ _ _ Hk), E.
  simpl. split; [done|]. simpl. rewrite lookup_insert_eq. done.
Qed.

(** X3: a moved-from CoTask holds the null handle: [resume] on it answers
    false and changes nothing, and its destructor destroys no frame; but
    [get_value] and [get_result] dereference the handle without a test and
    have no defined result. *)
Theorem moved_from_wrapper (dst src : string) σ σ1 :
  dst ≠ src →
  move_construct dst src σ = Ok σ1 ∨ move_assign dst src σ = Ok σ1 →
  resume src σ1 = Ok (false, σ1) ∧
  get_value src σ1 = Undefined ∧
  get_result src σ1 = Undefined ∧
  dtor src σ1 = Ok (mkWorld (frames σ1) (delete src (tasks σ1)) (cout σ1)).
Proof.
  intros Hne Hmove.
  assert (tasks σ1 !! src = Some (mkCoTask None)) as Hsrc.
  { destruct Hmove as [H|H].
    - apply move_construct_Ok in H as (_ & c & _ & ->). simpl.
      rewrite lookup_insert_ne by done. apply lookup_insert_eq.
    - apply move_assign_Ok in H as (t & c & _ & _ & [[? _]|(_ & fs & _ & ->)]); [done|].
      simpl. rewrite lookup_insert_ne by done. apply lookup_insert_eq. }
  unfold resume, get_value, get_result, dtor, task. rewrite Hsrc. done.
Qed.

(** X5: moving a CoTask keeps the state of its coroutine: [resume] through the
    destination gives the answer, the frames and the output that [resume]
    through the source would have given. *)
Theorem resume_after_move (dst src : string) σ σ1 (again : bool) σ2 :
  move_construct dst src σ = Ok σ1 →
  resume src σ = Ok (again, σ2) →
  resume dst σ1 = Ok (again, mkWorld (frames σ2) (tasks σ1) (cout σ2)).
Proof.
  intros Hmove Hres. apply move_construct_Ok in Hmove as (_ & c & Hc & ->).
  apply resume_Ok in Hres as (c' & Hc' & Hres). rewrite Hc in Hc'. injection Hc' as <-.
  unfold resume, task. simpl. rewrite lookup_insert_eq. simpl.
  apply CoTask_resume_Ok in Hres
    as [(-> & -> & Hcase)|(h & f & f' & out & Hh & Hf & Hd & Hr & -> & ->)];
    unfold CoTask_resume; simpl.
  - destruct Hcase as [->|(h & f & -> & Hf & Hd)]; [done|]. by rewrite Hf, Hd.
  - by rewrite Hh, Hf, Hd, Hr.
Qed.
End Wrappers.

(** ** Frames are neither leaked nor destroyed twice *)

Section Lifetime.
Context {T U : Type} `{!ReturnType U}.
Implicit Types (σ : World T U) (p : Promise T U) (k : Body T U)
  (f : Frame (Promise T U) T U) (h : nat) (op : Op T U).

(** X6: no frame is leaked.  In every state that a program reaches from the
    empty world, the live frames are exactly the frames whose handle some live
    CoTask holds; so when no CoTask holds a handle any more, in particular
    when all of them have been destroyed, no frame is left. *)
Theorem no_frame_leaked (ops : list (Op T U)) (out : string) σ :
  exec_all ops (start out) = Ok σ →
  (∀ h, is_Some (frames σ !! h) ↔ ∃ w, owns σ w h) ∧
  ((∀ (w : string) ct, tasks σ !! w = Some ct → handle_ ct = None) → frames σ = ∅).
Proof.
  intros Hreach.
  assert (wf σ) as [Hu Ha Ho] by (eapply exec_all_wf; [apply wf_start|exact Hreach]).
  split.
  - intros h. split; [apply Ho|]. intros [w Hw]. by eapply Ha.
  - intros Hnull. apply map_empty. intros h.
    destruct (frames σ !! h) as [f|] eqn:Hf; [|done].
    destruct (Ho h) as [w Hw]; [eauto|].
    specialize (Hnull w _ Hw). discriminate.
Qed.

(** A stretch throws, or flows off the end without [return_void], or
    suspends. *)
Lemma run_outcomes p k out :
  (throws_next k = true ∧ run p k out = Terminated) ∨
  (runs_off_next k = true ∧ run p k out = Undefined) ∨
  (∃ f out', run p k out = Ok (Some f, out')).
Proof.
  destruct (throws_next k) eqn:Et; [left; auto using run_throws|].
  destruct (runs_off_next k) eqn:Er; [right; left; auto using run_runs_off|].
  right; right. by apply run_suspends.
Qed.

Lemma destroy_if_set_defined (ct : CoTask) σ (w : string) :
  wf σ → tasks σ !! w = Some ct → ∃ fs, destroy_if_set ct (frames σ) = Ok fs.
Proof.
  intros Hwf Hw. unfold destroy_if_set, handle_destroy.
  destruct ct as [[h|]]; simpl; [|eauto].
  destruct (wf_alive σ Hwf w h Hw) as [f ->]. eauto.
Qed.

(** X7: from a state that a program has reached, a statement that creates,
    moves, destroys or resumes CoTask objects under names that are in scope
    succeeds, with two exceptions, both of [resume] and both the doing of the
    resumed stretch of the body: the stretch throws, which ends the process;
    or the stretch flows off the end of the body although the promise
    declares no [return_void], which has no defined behaviour.  So no frame
    is destroyed twice, and no dangling or finished coroutine is resumed. *)
Theorem lifecycle_defined (ops : list (Op T U)) (out : string) σ op :
  exec_all ops (start out) = Ok σ → well_scoped op σ → is_read op = false →
  (∃ σ', exec op σ = Ok σ') ∨
  (∃ (w : string) h f k, op = OpResume w ∧ owns σ w h ∧ frames σ !! h = Some f ∧
     continuation f = Some k ∧
     ((throws_next k = true ∧ exec op σ = Terminated) ∨
      (runs_off_next k = true ∧ exec op σ = Undefined))).
Proof.
  intros Hreach Hscope Hread.
  assert (wf σ) as Hwf by (eapply exec_all_wf; [apply wf_start|exact Hreach]).
  destruct op as [w b|dst src|this c0|w|w|w|w]; simpl in *; try discriminate.
  - left. unfold call. rewrite Hscope, coroutine_call_suspended. simpl. eauto.
  - left. destruct Hscope as [Hd [c Hc]]. unfold move_construct, task.
    rewrite Hd, Hc. simpl. eauto.
  - left. destruct Hscope as [[t Ht] [c Hc]]. unfold move_assign, task.
    rewrite Ht, Hc. simpl. case_decide; [eauto|].
    destruct (destroy_if_set_defined t σ this Hwf Ht) as [fs ->]. simpl. eauto.
  - left. destruct Hscope as [c Hc]. unfold dtor, task. rewrite Hc. simpl.
    destruct (destroy_if_set_defined c σ w Hwf Hc) as [fs ->]. simpl. eauto.
  - destruct Hscope as [c Hc]. unfold resume, task. rewrite Hc. simpl.
    unfold CoTask_resume. destruct c as [[h|]]; simpl; [|left; eauto].
    destruct (wf_alive σ Hwf w h Hc) as [f Hf]. rewrite Hf.
    destruct (done f) eqn:Hd; [left; simpl; eauto|].
    destruct (not_done_continuation f Hd) as [k Hk].
    rewrite (handle_resume_continuation _ _ _ Hk).
    destruct (run_outcomes (promise f) k (cout σ)) as [[Ht ->]|[[Hr ->]|(f' & o & ->)]];
      simpl.
    + right. exists w, h, f, k. repeat split; try done. by left.
    + right. exists w, h, f, k. repeat split; try done. by right.
    + left. eauto.
Qed.
End Lifetime.

(** ** Polling a coroutine to its end *)

Lemma append_assoc (a b c : string) : (a +:+ b) +:+ c = a +:+ (b +:+ c).
Proof.
  induction a as [|x a IH]; [done|].
  change (String x ((a +:+ b) +:+ c) = String x (a +:+ (b +:+ c))). by rewrite IH.
Qed.

Lemma append_empty_r (a : string) : a +:+ "" = a.
Proof.
  induction a as [|x a IH]; [done|].
  change (String x (a +:+ "") = String x a). by rewrite IH.
Qed.

Section Polling.
Context {T U : Type} `{!ReturnType U}.
Implicit Types (σ : World T U) (p : Promise T U) (k : Body T U)
  (f : Frame (Promise T U) T U) (h : nat).

Lemma done_no_continuation f : done f = true → continuation f = None.
Proof. unfold done, continuation. by destruct (status f). Qed.

(** What a stretch writes, and what is left to write after it. *)
Lemma run_output p k out f out' :
  run p k out = Ok (Some f, out') →
  out' +:+ from_option prints "" (continuation f) = out +:+ prints k.
Proof.
  revert p out. induction k as [s k IH|a k IH|x k IH|y| |]; intros p out; simpl.
  - intros H. rewrite (IH _ _ H). apply append_assoc.
  - destruct a; simpl; [|apply IH]. by intros [= <- <-].
  - by intros [= <- <-].
  - by intros [= <- <-].
  - destruct (returns_void U); [|discriminate]. by intros [= <- <-].
  - discriminate.
Qed.

Lemma poll_output (fuel : nat) (w : string) σ h f k :
  ends_in_throw k = false → runs_off_end k = false → (body_size k ≤ fuel)%nat →
  owns σ w h → frames σ !! h = Some f → continuation f = Some k →
  ∃ f', done f' = true ∧
    while_resume fuel w Ok σ
    = Ok (mkWorld (<[h := f']> (frames σ)) (tasks σ) (cout σ +:+ prints k)).
Proof.
  revert σ f k. induction fuel as [|fuel IH]; intros σ f k He Hr Hs Hw Hf Hk.
  - destruct k; simpl in Hs; lia.
  - simpl. unfold resume, task. unfold owns in Hw. rewrite Hw. simpl.
    unfold CoTask_resume. simpl. rewrite Hf, (continuation_not_done _ _ Hk).
    rewrite (handle_resume_continuation _ _ _ Hk).
    destruct (run_towards_end (promise f) k (cout σ) He Hr)
      as (f1 & o & E & [Hd|(k' & Hc & He' & Hr' & Hs')]); rewrite E; simpl;
      apply run_output in E.
    + rewrite Hd. simpl. exists f1. split; [done|].
      rewrite (done_no_continuation _ Hd) in E. simpl in E.
      rewrite append_empty_r in E. by rewrite E.
    + rewrite (continuation_not_done _ _ Hc). simpl.
      destruct (IH (mkWorld (<[h := f1]> (frames σ)) (tasks σ) o) f1 k')
        as (f' & Hd & ->); [done|done|lia|done|apply lookup_insert_eq|done|].
      exists f'. split; [done|]. simpl. rewrite insert_insert_eq.
      rewrite Hc in E. simpl in E. by rewrite E.
Qed.

(** X8: the pattern of the first block of [main], for a coroutine whose body
    is a finite run of writes, [co_await]s and [co_yield]s that ends in a
    return, by [co_return y] or, under a promise that declares [return_void],
    by reaching its end: calling it, resuming it while [resume] answers true
    and destroying the CoTask runs the whole body once, so that the output
    grows by everything the body writes, in order, and leaves neither a frame
    nor a CoTask behind. *)
Theorem poll_runs_body (body : Body T U) (fuel : nat) (w out : string) :
  ends_in_throw body = false → runs_off_end body = false →
  (body_size body ≤ fuel)%nat →
  (σ ← call w body (start out); σ ← while_resume fuel w Ok σ; dtor w σ)
  = Ok (mkWorld ∅ ∅ (out +:+ prints body)).
Proof.
  intros He Hr Hs. unfold call, start. simpl. rewrite lookup_empty. simpl.
  set (h := fresh (dom (∅ : gmap nat (Frame (Promise T U) T U)))).
  set (f := mkFrame (mkPromise None None) (AtInitialSuspend body)
            : Frame (Promise T U) T U).
  destruct (poll_output fuel w
              (mkWorld (<[h := f]> ∅) (<[w := get_return_object h]> ∅) out) h f body)
    as (f' & Hd & ->);
    [done|done|done|apply lookup_insert_eq|apply lookup_insert_eq|done|].
  simpl. unfold dtor, task. simpl. rewrite lookup_insert_eq. simpl.
  unfold destroy_if_set, handle_destroy. simpl. rewrite lookup_insert_eq. simpl.
  by rewrite !delete_insert_eq, !delete_empty.
Qed.
End Polling.

Section PrintingLoop.
Context {U : Type} `{!ReturnType U}.
Implicit Types (σ : World Z U) (p : Promise Z U) (f : Frame (Promise Z U) Z U) (h : nat).

(** The loop [while(w.resume()) std::cout << w.get_value() << '\n';] on a
    coroutine that is about to yield the values of [l] and then return. *)
Lemma print_loop (l : list Z) (fin : Body Z U) (fuel : nat) (w : string) σ h f :
  (∀ p out, run p fin out
            = Ok (Some (mkFrame (apply_call (next_call fin) p) AtFinalSuspend), out)) →
  (length l < fuel)%nat →
  owns σ w h → frames σ !! h = Some f → continuation f = Some (yields_then l fin) →
  while_resume fuel w (print_value show w) σ
  = Ok (mkWorld
          (<[h := mkFrame (apply_call (next_call fin)
                             (mkPromise (last_yield (x_ (promise f)) l) (y_ (promise f))))
                          AtFinalSuspend]> (frames σ))
          (tasks σ) (cout σ +:+ lines l)).
Proof.
  intros Hfin. revert fuel σ f. induction l as [|x l IH]; intros fuel σ f Hfuel Hw Hf Hk;
    (destruct fuel as [|fuel]; [simpl in Hfuel; lia|]); simpl in *.
  - unfold resume, task. unfold owns in Hw. rewrite Hw. simpl.
    unfold CoTask_resume. simpl. rewrite Hf, (continuation_not_done _ _ Hk).
    rewrite (handle_resume_continuation _ _ _ Hk), Hfin. simpl.
    rewrite append_empty_r. by destruct (promise f).
  - unfold resume, task. pose proof Hw as Hw'. unfold owns in Hw'. rewrite Hw'. simpl.
    unfold CoTask_resume. simpl. rewrite Hf, (continuation_not_done _ _ Hk).
    rewrite (handle_resume_continuation _ _ _ Hk). simpl.
    set (f1 := mkFrame (mkPromise (Some x) (y_ (promise f))) (AtYield (yields_then l fin))).
    set (σ1 := mkWorld (<[h := f1]> (frames σ)) (tasks σ) (cout σ)).
    assert (print_value show w σ1 = Ok (write nl (write (show x) σ1))) as ->.
    { unfold print_value, get_value, task, CoTask_get_value, handle_promise. simpl.
      rewrite Hw'. simpl. by rewrite lookup_insert_eq. }
    simpl. rewrite (IH fuel _ f1); simpl; [|lia|done|apply lookup_insert_eq|done].
    rewrite insert_insert_eq. do 2 f_equal. unfold line.
    by rewrite !append_assoc.
Qed.

End PrintingLoop.

(** X9: the pattern of the second and third block of [main], for a coroutine
    that yields the values of any list [l]: the loop prints each yielded
    value once, in order, one per line, and nothing else; the resumption that
    finishes the coroutine prints nothing.  This holds for a coroutine without
    a returned value whose body then reaches its end, as [co_yield_int], and
    for a coroutine whose body then ends in [co_return y], as
    [co_return_int]; for the latter [get_result] after the loop reads [y].
    Destroying the CoTask leaves no frame behind. *)
Theorem loop_prints_yields {U : Type} `{!ReturnType U}
    (l : list Z) (fuel : nat) (w out : string) :
  (length l < fuel)%nat →
  (σ ← call w (yields_then l (CoReturnVoid : Body Z void)) (start out);
   σ ← while_resume fuel w (print_value show w) σ;
   dtor w σ) = Ok (mkWorld ∅ ∅ (out +:+ lines l)) ∧
  ∀ y : U,
    (σ ← call w (yields_then l (CoReturn y)) (start out);
     σ ← while_resume fuel w (print_value show w) σ;
     r ← get_result w σ;
     σ ← dtor w σ;
     Ok (r, σ)) = Ok (y, mkWorld ∅ ∅ (out +:+ lines l)).
Proof.
  intros Hfuel.
  split; [|intros y]; unfold call, start; simpl; rewrite lookup_empty; simpl.
  - set (h := fresh (dom (∅ : gmap nat (Frame (Promise Z void) Z void)))).
    rewrite (print_loop (U := void) l CoReturnVoid fuel w _ h
               (mkFrame (mkPromise None None) (AtInitialSuspend (yields_then l CoReturnVoid))));
      [|done|done|apply lookup_insert_eq|apply lookup_insert_eq|done].
    simpl. unfold dtor, task. simpl. rewrite lookup_insert_eq. simpl.
    unfold destroy_if_set, handle_destroy. simpl. rewrite lookup_insert_eq. simpl.
    by rewrite !delete_insert_eq, !delete_empty.
  - set (h := fresh (dom (∅ : gmap nat (Frame (Promise Z U) Z U)))).
    rewrite (print_loop l (CoReturn y) fuel w _ h
               (mkFrame (mkPromise None None) (AtInitialSuspend (yields_then l (CoReturn y)))));
      [|done|done|apply lookup_insert_eq|apply lookup_insert_eq|done].
    simpl. unfold get_result, dtor, task, CoTask_get_result, handle_promise. simpl.
    rewrite lookup_insert_eq. simpl. rewrite lookup_insert_eq. simpl.
    unfold destroy_if_set, handle_destroy. simpl. rewrite lookup_insert_eq. simpl.
    by rewrite !delete_insert_eq, !delete_empty.
Qed.

(** ** The generator example for any [n] *)

Section GeneratorRuns.
Implicit Types (ty : IntType) (n : Z) (l : list Z).

Lemma print_foldl l (out : string) :
  foldl (λ (s : () * string) (x : Z), let '(u, out) := s in (u, out +:+ show x +:+ nl))
        ((), out) l
  = ((), out +:+ lines l).
Proof.
  revert out. induction l as [|x l IH]; intros out; simpl.
  - by rewrite append_empty_r.
  - rewrite IH. unfold line. by rewrite !append_assoc.
Qed.

(** X10: for every integral type that is written as a number, as the [int] of
    [main] is, and every [n] of it, [print_range(sequence(n))] writes the
    values 0, 1, ..., [n - 1] in decimal, one per line, and then an empty
    line; collecting the generator into a vector first and printing the vector
    writes the same.  For [n <= 0] only the empty line is written.  The
    character types are left out: their values are written as characters. *)
Theorem print_range_sequence ty n (fuel : nat) (out : string) :
  is_character_type ty = false → in_range ty n → (Z.to_nat n < fuel)%nat →
  ('(g, out) ← sequence ty fuel n out; print_range fuel g out)
  = Ok ((out +:+ lines (seqZ 0 n)) +:+ nl) ∧
  ('(g, out) ← sequence ty fuel n out;
   '(x, out) ← to_vector fuel g out;
   print_range fuel x out)
  = Ok ((out +:+ lines (seqZ 0 n)) +:+ nl) ∧
  (n ≤ 0 → ('(g, out) ← sequence ty fuel n out; print_range fuel g out) = Ok (out +:+ nl)).
Proof.
  intros _ Hn Hfuel.
  assert (('(g, out) ← sequence ty fuel n out; print_range fuel g out)
          = Ok ((out +:+ lines (seqZ 0 n)) +:+ nl)) as Hgen.
  { rewrite sequence_spec by done. simpl. unfold print_range.
    rewrite range_fold_yield_all by (rewrite length_seqZ; lia).
    simpl. etrans; [|exact (f_equal (λ s, Ok (s.2 +:+ nl)) (print_foldl (seqZ 0 n) out))].
    by destruct (foldl _ _ _). }
  split; [exact Hgen|]. split.
  - rewrite sequence_spec by done. simpl. unfold to_vector.
    rewrite range_fold_yield_all by (rewrite length_seqZ; lia).
    simpl. rewrite (collect_foldl (seqZ 0 n) [] out). simpl.
    unfold print_range, range_fold, vector_range. simpl.
    etrans; [|exact (f_equal (λ s, Ok (s.2 +:+ nl)) (print_foldl (seqZ 0 n) out))].
    by destruct (foldl _ _ _).
  - intros Hle. rewrite Hgen, seqZ_nil by done. simpl. by rewrite append_empty_r.
Qed.

Lemma includes_loop_yield_all (l1 l2 : list Z) (fuel : nat) (p : generator_promise Z)
    (out : string) :
  (length l1 < fuel)%nat →
  ('(f, out) ← run p (yield_all l1) out ≫= alive; includes_loop fuel f l2 out)
  = Ok (includes_list l1 l2, out).
Proof.
  revert l2 fuel p. induction l1 as [|a l1 IH]; intros l2 fuel p Hfuel;
    (destruct fuel as [|fuel]; [simpl in Hfuel; lia|]); simpl in *.
  - by destruct l2.
  - destruct l2 as [|b l2]; [done|]. simpl.
    destruct (b <? a); [done|].
    apply (IH (if a <? b then b :: l2 else l2) fuel (mkGeneratorPromise (Some a))). lia.
Qed.

Lemma increasing_above (b : Z) l : increasing (b :: l) → ∀ v, v ∈ l → b < v.
Proof.
  revert b. induction l as [|a l IH]; intros b [Hb Hl] v Hv.
  - by apply elem_of_nil in Hv.
  - apply elem_of_cons in Hv as [->|Hv]; [done|].
    specialize (IH a Hl v Hv). lia.
Qed.

Lemma forallb_agree (g1 g2 : Z → bool) l :
  (∀ v, v ∈ l → g1 v = g2 v) → forallb g1 l = forallb g2 l.
Proof.
  induction l as [|a l IH]; intros H; simpl; [done|].
  rewrite (H a), IH; [done| |]; intros; try apply H; set_solver.
Qed.

(** [includes] against the run 0, 1, ..., for an increasing second range. *)
Lemma includes_list_seqZ (m : nat) (x : Z) l :
  increasing l →
  includes_list (seqZ x (Z.of_nat m)) l
  = forallb (λ v, (x <=? v) && (v <? x + Z.of_nat m)) l.
Proof.
  revert x l. induction m as [|m IH]; intros x l Hl.
  - change (seqZ x (Z.of_nat 0)) with (@nil Z). destruct l as [|b l]; [done|].
    cbn [includes_list forallb].
    destruct (Z.leb_spec x b), (Z.ltb_spec b (x + Z.of_nat 0)); simpl; try done; lia.
  - rewrite seqZ_cons by lia.
    replace (Z.pred (Z.of_nat (S m))) with (Z.of_nat m) by lia.
    destruct l as [|b l]; [done|]. cbn [includes_list].
    pose proof (increasing_above b l Hl) as Habove.
    destruct (Z.ltb_spec b x) as [Hbx|Hbx].
    + simpl. destruct (Z.leb_spec x b); [lia|done].
    + destruct (Z.ltb_spec x b) as [Hxb|Hxb].
      * rewrite IH by done. apply forallb_agree. intros v Hv.
        assert (b ≤ v).
        { apply elem_of_cons in Hv as [->|Hv]; [lia|]. specialize (Habove v Hv). lia. }
        destruct (Z.leb_spec (Z.succ x) v), (Z.leb_spec x v),
          (Z.ltb_spec v (Z.succ x + Z.of_nat m)), (Z.ltb_spec v (x + Z.of_nat (S m)));
          simpl; try done; lia.
      * assert (b = x) as -> by lia. rewrite IH by apply Hl. simpl.
        destruct (Z.leb_spec x x), (Z.ltb_spec x (x + Z.of_nat (S m))); simpl; try lia.
        apply forallb_agree. intros v Hv. specialize (Habove v Hv).
        destruct (Z.leb_spec (Z.succ x) v), (Z.leb_spec x v),
          (Z.ltb_spec v (Z.succ x + Z.of_nat m)), (Z.ltb_spec v (x + Z.of_nat (S m)));
          simpl; try done; lia.
Qed.

(** X11: for a strictly increasing vector [l], the test
    [std::ranges::includes(sequence(n), l)] that [main] asserts holds exactly
    when every element of [l] is one of 0, 1, ..., [n - 1]. *)
Theorem includes_sequence ty n l (fuel : nat) (out : string) :
  in_range ty n → (Z.to_nat n < fuel)%nat → increasing l →
  ('(g, out) ← sequence ty fuel n out; includes fuel g l out)
  = Ok (forallb (λ v, (0 <=? v) && (v <? n)) l, out).
Proof.
  intros Hn Hfuel Hl. rewrite sequence_spec by done.
  assert (length (seqZ 0 n) < fuel)%nat as Hlen by (rewrite length_seqZ; lia).
  etrans;
    [exact (includes_loop_yield_all (seqZ 0 n) l fuel (mkGeneratorPromise None) out Hlen)|].
  do 2 f_equal.
  assert (seqZ 0 n = seqZ 0 (Z.of_nat (Z.to_nat n))) as ->.
  { unfold seqZ. by rewrite Nat2Z.id. }
  rewrite includes_list_seqZ by done. apply forallb_agree. intros v _.
  destruct (Z.leb_spec 0 v), (Z.ltb_spec v (0 + Z.of_nat (Z.to_nat n))), (Z.ltb_spec v n);
    simpl; try done; lia.
Qed.
End GeneratorRuns.

(** ** The further properties at work on small programs *)

Lemma resume_false_again_witness :
  CoTask_resume (mkCoTask (Some 0%nat)) yielded_task = Ok (false, finished_task) ∧
  CoTask_resume (mkCoTask (Some 0%nat)) finished_task = Ok (false, finished_task).
Proof.
  assert (CoTask_resume (mkCoTask (Some 0%nat)) yielded_task = Ok (false, finished_task))
    as Hfirst by (vm_compute; reflexivity).
  split; [exact Hfirst|]. exact (resume_false_again _ _ _ Hfirst).
Defined.

Lemma get_value_after_yield_witness :
  frames one_task !! 0%nat
  = Some (mkFrame (mkPromise None None) (AtInitialSuspend co_yield_int)) ∧
  next_call co_yield_int = CallYieldValue 0 ∧
  ∃ σ', CoTask_resume (mkCoTask (Some 0%nat)) one_task = Ok (true, σ') ∧
    CoTask_get_value (mkCoTask (Some 0%nat)) σ' = Ok 0 ∧
    CoTask_get_result (mkCoTask (Some 0%nat)) σ'
    = CoTask_get_result (mkCoTask (Some 0%nat)) one_task.
Proof.
  split; [reflexivity|]. split; [reflexivity|].
  apply (get_value_after_yield (mkCoTask (Some 0%nat)) one_task 0%nat
           (mkFrame (mkPromise None None) (AtInitialSuspend co_yield_int)) co_yield_int 0);
    reflexivity.
Defined.

Lemma moved_from_wrapper_witness :
  move_construct "b" "a" one_task = Ok moved_task ∧
  resume "a" moved_task = Ok (false, moved_task) ∧
  get_value "a" moved_task = Undefined.
Proof.
  assert (move_construct "b" "a" one_task = Ok moved_task) as Hmove
    by (vm_compute; reflexivity).
  split; [exact Hmove|].
  destruct (moved_from_wrapper "b" "a" one_task moved_task) as (Hr & Hv & _).
  - discriminate.
  - left. exact Hmove.
  - split; [exact Hr|exact Hv].
Defined.

Lemma resume_after_move_witness :
  move_construct "b" "a" one_task = Ok moved_task ∧
  ∃ σ2, resume "a" one_task = Ok (true, σ2) ∧
    resume "b" moved_task = Ok (true, mkWorld (frames σ2) (tasks moved_task) (cout σ2)).
Proof.
  assert (move_construct "b" "a" one_task = Ok moved_task) as Hmove
    by (vm_compute; reflexivity).
  split; [exact Hmove|].
  eexists. split; [reflexivity|].
  exact (resume_after_move "b" "a" one_task moved_task true _ Hmove eq_refl).
Defined.

Lemma no_frame_leaked_witness :
  exec_all [OpCall "a" co_yield_int; OpMoveCtor "b" "a"] (start "") = Ok moved_task ∧
  (∀ h, is_Some (frames moved_task !! h) ↔ ∃ w, owns moved_task w h).
Proof.
  split; [exact moved_task_reached|].
  exact (proj1 (no_frame_leaked _ "" moved_task moved_task_reached)).
Defined.

Lemma lifecycle_defined_witness :
  exec_all [OpCall "a" co_yield_int] (start "") = Ok one_task ∧
  well_scoped (OpDtor "a" : Op Z void) one_task ∧
  ∃ σ', exec (OpDtor "a") one_task = Ok σ'.
Proof.
  assert (well_scoped (OpDtor "a" : Op Z void) one_task) as Hscope
    by (eexists; reflexivity).
  split; [exact one_task_reached|]. split; [exact Hscope|].
  destruct (lifecycle_defined _ "" one_task (OpDtor "a") one_task_reached Hscope eq_refl)
    as [Hok|(w & h & f & k & Hop & _)]; [exact Hok|discriminate Hop].
Defined.

Lemma poll_runs_body_witness :
  ends_in_throw co_await_int = false ∧ runs_off_end co_await_int = false ∧
  (body_size co_await_int ≤ 7)%nat ∧
  (σ ← call "cpf" co_await_int (start ""); σ ← while_resume 7 "cpf" Ok σ; dtor "cpf" σ)
  = Ok (mkWorld ∅ ∅ ("" +:+ prints co_await_int)).
Proof.
  assert (body_size co_await_int ≤ 7)%nat as Hsize by (simpl; lia).
  split; [reflexivity|]. split; [reflexivity|]. split; [exact Hsize|].
  exact (poll_runs_body co_await_int 7 "cpf" "" eq_refl eq_refl Hsize).
Defined.

Lemma loop_prints_yields_witness :
  (length [0; 1] < 3)%nat ∧
  (σ ← call "cpf" (yields_then [0; 1] (CoReturnVoid : Body Z void)) (start "");
   σ ← while_resume 3 "cpf" (print_value show "cpf") σ;
   dtor "cpf" σ) = Ok (mkWorld ∅ ∅ ("" +:+ lines [0; 1])).
Proof.
  assert (length [0; 1] < 3)%nat as Hfuel by (simpl; lia).
  split; [exact Hfuel|].
  exact (proj1 (loop_prints_yields (U := void) [0; 1] 3 "cpf" "" Hfuel)).
Defined.

Lemma print_range_sequence_witness :
  is_character_type int = false ∧ in_range int 10 ∧ (Z.to_nat 10 < 11)%nat ∧
  ('(g, out) ← sequence int 11 10 ""; print_range 11 g out)
  = Ok (("" +:+ lines (seqZ 0 10)) +:+ nl).
Proof.
  assert (in_range int 10) as Hn by (unfold in_range, int_min, int_max; simpl; lia).
  assert (Z.to_nat 10 < 11)%nat as Hfuel by (simpl; lia).
  split; [reflexivity|]. split; [exact Hn|]. split; [exact Hfuel|].
  exact (proj1 (print_range_sequence int 10 11 "" eq_refl Hn Hfuel)).
Defined.

Lemma includes_sequence_witness :
  in_range int 10 ∧ (Z.to_nat 10 < 11)%nat ∧ increasing [1; 3; 5] ∧
  ('(g, out) ← sequence int 11 10 ""; includes 11 g [1; 3; 5] out) = Ok (true, "").
Proof.
  assert (in_range int 10) as Hn by (unfold in_range, int_min, int_max; simpl; lia).
  assert (Z.to_nat 10 < 11)%nat as Hfuel by (simpl; lia).
  assert (increasing [1; 3; 5]) as Hinc by (simpl; lia).
  split; [exact Hn|]. split; [exact Hfuel|]. split; [exact Hinc|].
  exact (includes_sequence int 10 [1; 3; 5] 11 "" Hn Hfuel Hinc).
Defined.

Lemma handle_destroyed_without_moves_witness :
  is_move (OpDtor "a" : Op Z void) = false ∧ wf one_task ∧ owns one_task "a" 0 ∧
  exec (OpDtor "a") one_task = Ok (mkWorld ∅ ∅ "") ∧
  destroyed 0 one_task (mkWorld ∅ ∅ "").
Proof.
  assert (exec (OpDtor "a") one_task = Ok (mkWorld ∅ ∅ "")) as Hex
    by (vm_compute; reflexivity).
  assert (owns one_task "a" 0) as Hw by reflexivity.
  split; [reflexivity|]. split; [exact one_task_wf|]. split; [exact Hw|].
  split; [exact Hex|].
  apply (handle_destroyed_without_moves (OpDtor "a") one_task (mkWorld ∅ ∅ "") "a" 0%nat
           eq_refl one_task_wf Hw Hex).
  reflexivity.
Defined.
